(** * apk_crawler: the discovery-and-retry engine of [crawl.py]

    A shallow embedding of [_download], [crawl] and [_discover_apps].
    The store API ([PlayStore.API] / [FDroid.API]) is an object with
    hidden state that talks to a remote server; it is modelled as a
    record of state-passing operations over an arbitrary state type.
    Everything observable that the crawler does (calls of
    [api.download], [time.sleep], [LOGGER] lines, [app_list.more()]) is
    recorded, in program order, in a list of events. *)

From Stdlib Require Import ZArith List Ascii String Lia.
From stdpp Require Import base option list gmap sets strings.

Open Scope Z_scope.

(** ** Data *)

(** How one call [api.download(app)] ends: it returns normally, or raises
    one of the three exceptions the crawler catches, tested in the order
    of the [except] clauses. *)
Inductive Outcome : Type :=
  | Success
  | Wait
  | Retry
  | RequestError (e : string).

(** An app of a store; [package_name] is its identifier. *)
Record App : Type := mkApp {
  package_name : string;
  proto : string
}.

(** Modelled from the spec: the listing class of the API package (an
    [AppList]) is not part of the sources.  A listing is a named, ordered
    collection of apps that grows in place, one page per [more()]. *)
Record AppList : Type := mkAppList {
  name : string;
  entries : list App
}.

(** Result of one [app_list.more()]: a further page was fetched and its
    apps appended to the listing, or [Maximum] was raised. *)
Inductive More : Type :=
  | Page (p : list App)
  | Maximum.

Inductive Level : Type := info | warning | error | exception.

(** One constructor per [LOGGER] call site, carrying the interpolated
    values. *)
Inductive Message : Type :=
  | ServerBusy (wait : Z)
  | SaidRetry (app : string)
  | FailedSecondTime (app : string)
  | RequestFailed (app : string) (e : string)
  | Crawling (store : string)
  | Started (listing : string)
  | Finished (listing : string) (apps succeeded retried busied : nat)
  | StartedFailed
  | FinishedFailed (apps succeeded retried busied : nat)
  | StillBusy (times : nat)
  | Waited (total_wait : Z)
  | StartedFailedTwice
  | FinishedFailedTwice (apps succeeded retried busied : nat)
  | FoundSubcategories (subcategories categories : nat)
  | Yielded (listing : string) (apps : nat)
  | FinishedDiscovering (app_count lists categories unique : nat).

Inductive Event : Type :=
  | EvDownload (app : App) (o : Outcome)
  | EvSleep (secs : Z)
  | EvLog (lvl : Level) (m : Message)
  | EvMore (listing : string) (r : More).

(** The capabilities of a store API that the crawler uses. *)
Record API (St : Type) : Type := mkAPI {
  store : string;
  categories : St -> list string * St;
  subcategories : string -> St -> list string * St;
  discover_apps : string -> St -> option AppList * St;
  more : AppList -> St -> More * St;
  download : App -> St -> Outcome * St
}.

Arguments store {St} _.
Arguments categories {St} _ _.
Arguments subcategories {St} _ _ _.
Arguments discover_apps {St} _ _ _.
Arguments more {St} _ _ _.
Arguments download {St} _ _ _.

(** ** Effects: API state and the event log *)

Definition M (St A : Type) : Type := St -> A * St * list Event.

Definition ret {St A} (a : A) : M St A := fun s => (a, s, []).

Definition bind {St A B} (m : M St A) (k : A -> M St B) : M St B :=
  fun s =>
    let '(a, s1, e1) := m s in
    let '(b, s2, e2) := k a s1 in
    (b, s2, e1 ++ e2).

Notation "x <- m ;; k" := (bind m (fun x => k))
  (at level 100, m at next level, right associativity).
Notation "m ;;; k" := (bind m (fun _ => k))
  (at level 100, right associativity).

Definition emit {St} (e : Event) : M St unit := fun s => (tt, s, [e]).

Definition log {St} (lvl : Level) (m : Message) : M St unit :=
  emit (EvLog lvl m).

Definition sleep {St} (secs : Z) : M St unit := emit (EvSleep secs).

Definition call_download {St} (api : API St) (app : App) : M St Outcome :=
  fun s => let '(o, s1) := download api app s in (o, s1, [EvDownload app o]).

(** [for x in l: a = f a x] *)
Fixpoint for_each {St A B} (f : A -> B -> M St A) (a : A) (l : list B)
  : M St A :=
  match l with
  | [] => ret a
  | x :: xs => a1 <- f a x ;; for_each f a1 xs
  end.

(** ** [_download] *)

(** The variables of one [_download] call.  [downloaded] is the caller's
    set object, which the call holds by reference. *)
Record Locals : Type := mkLocals {
  downloaded : gset string;
  already_waited : bool;
  wait : Z;
  retry_list : list App;
  busy_list : list App;
  local_success : gset string
}.

Definition init_locals (downloaded0 : gset string) : Locals :=
  {| downloaded := downloaded0;
     already_waited := false;
     wait := 30;
     retry_list := [];
     busy_list := [];
     local_success := ∅ |}.

(** The body of [for app in apps]. *)
Definition download_body {St} (api : API St) (retry : bool)
    (v : Locals) (app : App) : M St Locals :=
  let name := package_name app in
  if decide (name ∈ downloaded v ∨ name ∈ local_success v) then ret v
  else
    o <- call_download api app ;;
    match o with
    | Success =>
        ret {| downloaded := downloaded v;
               already_waited := false;
               wait := 30;
               retry_list := retry_list v;
               busy_list := busy_list v;
               local_success := local_success v ∪ {[package_name app]} |}
    | Wait =>
        let wait1 := if already_waited v then wait v * 2 else wait v in
        log warning (ServerBusy wait1) ;;;
        sleep wait1 ;;;
        ret {| downloaded := downloaded v;
               already_waited := true;
               wait := wait1;
               retry_list := retry_list v;
               busy_list := busy_list v ++ [app];
               local_success := local_success v |}
    | Retry =>
        if retry then
          log warning (SaidRetry (package_name app)) ;;;
          ret {| downloaded := downloaded v;
                 already_waited := false;
                 wait := 30;
                 retry_list := retry_list v ++ [app];
                 busy_list := busy_list v;
                 local_success := local_success v |}
        else
          log exception (FailedSecondTime name) ;;;
          ret {| downloaded := downloaded v;
                 already_waited := false;
                 wait := 30;
                 retry_list := retry_list v;
                 busy_list := busy_list v;
                 local_success := local_success v |}
    | RequestError e =>
        log error (RequestFailed (package_name app) e) ;;;
        ret {| downloaded := downloaded v;
               already_waited := already_waited v;
               wait := wait v;
               retry_list := retry_list v ++ [app];
               busy_list := busy_list v;
               local_success := local_success v |}
    end.

(** The loop of [_download], from the initial values of the locals. *)
Definition download_loop {St} (api : API St) (apps : list App)
    (downloaded0 : gset string) (retry : bool) : M St Locals :=
  for_each (download_body api retry) (init_locals downloaded0) apps.

(** [_download(api, apps, downloaded, retry)]: the returned triple, and
    the caller's [downloaded] object as the call leaves it. *)
Definition _download {St} (api : API St) (apps : list App)
    (downloaded0 : gset string) (retry : bool)
  : M St (list App * list App * gset string * gset string) :=
  v <- download_loop api apps downloaded0 retry ;;
  ret (retry_list v, busy_list v, local_success v, downloaded v).

(** ** [crawl], after discovery *)

(** The body of [for app_list in app_lists] in [crawl]; the loop carries
    [retry], [busy] and [downloaded]. *)
Definition listing_body {St} (api : API St)
    (acc : list App * list App * gset string) (app_list : AppList)
  : M St (list App * list App * gset string) :=
  let '(retry, busy, downloaded0) := acc in
  log info (Started (name app_list)) ;;;
  r <- _download api (entries app_list) downloaded0 true ;;
  let '(local_retry, local_busy, local_success0, downloaded1) := r in
  let retry := retry ++ local_retry in
  let busy := busy ++ local_busy in
  let downloaded2 := downloaded1 ∪ local_success0 in
  log info (Finished (name app_list) (length (entries app_list))
              (size local_success0) (length local_retry) (length local_busy)) ;;;
  ret (retry, busy, downloaded2).

(** [for i in range(60): time.sleep(60); total_wait += 1; LOGGER.info(...)] *)
Definition cooldown_body {St} (total_wait : Z) (i : nat) : M St Z :=
  sleep 60 ;;;
  let total_wait := total_wait + 1 in
  log info (Waited total_wait) ;;;
  ret total_wait.

Definition cooldown {St} : M St Z :=
  for_each cooldown_body 0 (seq 0 60).

(** What a run of [crawl] leaves behind: the values of its variables when
    it returns, and the results of the three calls of [_download] made
    after the listings (the last result is discarded by the code). *)
Record Run : Type := mkRun {
  run_app_lists : list AppList;
  run_retry : list App;
  run_busy : list App;
  run_downloaded : gset string;
  busy_pass : list App * list App * gset string;
  cooldown_pass : option (list App * list App * gset string);
  final_pass : list App * list App * gset string
}.

(** Lines 95-128 of [crawl]: everything after [_discover_apps]. *)
Definition crawl_passes {St} (api : API St) (app_lists : list AppList)
  : M St Run :=
  acc <- for_each (listing_body api) ([], [], ∅) app_lists ;;
  let '(retry, busy, downloaded0) := acc in
  log info StartedFailed ;;;
  r1 <- _download api busy downloaded0 true ;;
  let '(local_retry0, local_busy, local_success0, downloaded1) := r1 in
  log info (FinishedFailed (length busy) (size local_success0)
              (length local_retry0) (length local_busy)) ;;;
  let downloaded2 := downloaded1 ∪ local_success0 in
  c <- match local_busy with
       | [] => ret (local_retry0, None, downloaded2)
       | _ :: _ =>
           log info (StillBusy (length local_busy)) ;;;
           _ <- cooldown ;;
           log info StartedFailedTwice ;;;
           r2 <- _download api local_busy downloaded2 true ;;
           let '(local_retry, local_busy_new, local_success1, downloaded3) := r2 in
           log info (FinishedFailedTwice (length local_busy)
                       (size local_success1) (length local_retry)
                       (length local_busy_new)) ;;;
           ret (local_retry,
                Some (local_retry, local_busy_new, local_success1),
                downloaded3)
       end ;;
  let '(local_retry, second, downloaded4) := c in
  let retry := retry ++ local_retry in
  r3 <- _download api retry downloaded4 false ;;
  let '(final_retry, final_busy, final_success, downloaded5) := r3 in
  ret {| run_app_lists := app_lists;
         run_retry := retry;
         run_busy := busy;
         run_downloaded := downloaded5;
         busy_pass := (local_retry0, local_busy, local_success0);
         cooldown_pass := second;
         final_pass := (final_retry, final_busy, final_success) |}.

(** ** [_discover_apps] *)

(** Code that may loop forever runs on fuel; [None] is "out of fuel". *)
Definition P (St A : Type) : Type := St -> option (A * St * list Event).

Definition pbind {St A B} (m : P St A) (k : A -> P St B) : P St B :=
  fun s =>
    match m s with
    | None => None
    | Some (a, s1, e1) =>
        match k a s1 with
        | None => None
        | Some (b, s2, e2) => Some (b, s2, e1 ++ e2)
        end
    end.

Definition total {St A} (m : M St A) : P St A := fun s => Some (m s).

Notation "x <~ m ;; k" := (pbind m (fun x => k))
  (at level 100, m at next level, right associativity).
Notation "m ;;p; k" := (pbind m (fun _ => k))
  (at level 100, right associativity).

Fixpoint pfor_each {St A B} (f : A -> B -> P St A) (a : A) (l : list B)
  : P St A :=
  match l with
  | [] => total (ret a)
  | x :: xs => a1 <~ f a x ;; pfor_each f a1 xs
  end.

Definition ALL : bool := true.

(** Modelled from the spec: [app_list.more()] of the absent listing class
    fetches the next page and appends its apps to the listing in place,
    or raises [Maximum] when there is no further page. *)
Definition call_more {St} (api : API St) (app_list : AppList)
  : M St (option AppList) :=
  fun s =>
    let '(r, s1) := more api app_list s in
    (match r with
     | Page p => Some {| name := name app_list;
                         entries := entries app_list ++ p |}
     | Maximum => None
     end, s1, [EvMore (name app_list) r]).

(** [while ALL: try: app_list.more() except Maximum: LOGGER.info(...); break] *)
Fixpoint more_loop {St} (fuel : nat) (api : API St) (app_list : AppList)
  : P St AppList :=
  match fuel with
  | O => fun _ => None
  | S fuel' =>
      if ALL then
        r <~ total (call_more api app_list) ;;
        match r with
        | Some app_list1 => more_loop fuel' api app_list1
        | None =>
            total (log info (Yielded (name app_list)
                               (length (entries app_list))) ;;;
                   ret app_list)
        end
      else total (ret app_list)
  end.

(** Modelled from the spec: [api.discover_apps] gives a listing or
    nothing; as the listing class has a length, [not app_list] also
    holds of a listing without apps. *)
Definition falsy (app_list : option AppList) : bool :=
  match app_list with
  | None => true
  | Some l => match entries l with [] => true | _ :: _ => false end
  end.

Definition subcategories_body {St} (api : API St)
    (subs : list string) (category : string) : M St (list string) :=
  fun s => let '(l, s1) := subcategories api category s in
           (subs ++ l, s1, []).

Definition discover_body {St} (fuel : nat) (api : API St)
    (acc : list AppList * nat) (subcategory : string)
  : P St (list AppList * nat) :=
  let '(app_lists, app_count) := acc in
  o <~ total (fun s => let '(o, s1) := discover_apps api subcategory s in
                       (o, s1, [])) ;;
  match o with
  | Some app_list =>
      if falsy o then total (ret acc)  (* continue *)
      else
        app_list1 <~ more_loop fuel api app_list ;;
        total (ret (app_lists ++ [app_list1],
                    (app_count + length (entries app_list1))%nat))
  | None => total (ret acc)  (* continue *)
  end.

Definition _discover_apps {St} (fuel : nat) (api : API St)
  : P St (list AppList) :=
  cats <~ total (fun s => let '(l, s1) := categories api s in (l, s1, [])) ;;
  subs <~ total (for_each (subcategories_body api) [] cats) ;;
  total (log info (FoundSubcategories (length subs) (length cats))) ;;p;
  acc <~ pfor_each (discover_body fuel api) ([], O) subs ;;
  let '(app_lists, app_count) := acc in
  let app_set : gset string :=
    foldl (fun app_set app_list =>
             foldl (fun app_set app => app_set ∪ {[package_name app]})
                   app_set (entries app_list))
          ∅ app_lists in
  total (log info (FinishedDiscovering app_count (length app_lists)
                     (length cats) (size app_set))) ;;p;
  total (ret app_lists).

(** [crawl(api)] *)
Definition crawl {St} (fuel : nat) (api : API St) : P St Run :=
  total (log info (Crawling (store api))) ;;p;
  app_lists <~ _discover_apps fuel api ;;
  total (crawl_passes api app_lists).

(** ** A scripted store, for running the crawler on concrete inputs

    Its state is the list of outcomes that the coming calls of
    [download] will have, in call order (a call beyond the script
    succeeds), and for each subcategory the pages not yet fetched.  Every
    category has one subcategory of the same name. *)
Record Script : Type := mkScript {
  outcomes : list Outcome;
  catalog : list (string * list (list App))
}.

Fixpoint next_page (sub : string) (cat : list (string * list (list App)))
  : option (list App) * list (string * list (list App)) :=
  match cat with
  | [] => (None, [])
  | (n, pages) :: rest =>
      if String.eqb n sub then
        match pages with
        | [] => (None, cat)
        | p :: ps => (Some p, (n, ps) :: rest)
        end
      else
        let '(r, rest1) := next_page sub rest in (r, (n, pages) :: rest1)
  end.

Definition scripted : API Script :=
  {| store := "scripted";
     categories := fun s => (map fst (catalog s), s);
     subcategories := fun c s => ([c], s);
     discover_apps := fun sub s =>
       let '(r, cat1) := next_page sub (catalog s) in
       (match r with
        | Some p => Some {| name := sub; entries := p |}
        | None => None
        end, {| outcomes := outcomes s; catalog := cat1 |});
     more := fun l s =>
       let '(r, cat1) := next_page (name l) (catalog s) in
       (match r with Some p => Page p | None => Maximum end,
        {| outcomes := outcomes s; catalog := cat1 |});
     download := fun app s =>
       match outcomes s with
       | [] => (Success, s)
       | o :: os => (o, {| outcomes := os; catalog := catalog s |})
       end |}.

Definition app (n : string) : App := {| package_name := n; proto := "" |}.

(** The calls of [api.download] among the events, in order. *)
Definition download_calls (evs : list Event) : list (App * Outcome) :=
  omap (fun e => match e with EvDownload a o => Some (a, o) | _ => None end) evs.

(** The durations of the [time.sleep] calls among the events, in order. *)
Definition sleeps (evs : list Event) : list Z :=
  omap (fun e => match e with EvSleep n => Some n | _ => None end) evs.


(** ** The loop body of [_download] as a transition on the outcome *)

(** The locals after an app was attempted with outcome [o]. *)
Definition after (retry : bool) (v : Locals) (a : App) (o : Outcome)
  : Locals :=
  match o with
  | Success =>
      mkLocals (downloaded v) false 30 (retry_list v) (busy_list v)
               (local_success v ∪ {[package_name a]})
  | Wait =>
      mkLocals (downloaded v) true
               (if already_waited v then wait v * 2 else wait v)
               (retry_list v) (busy_list v ++ [a]) (local_success v)
  | Retry =>
      mkLocals (downloaded v) false 30
               (if retry then retry_list v ++ [a] else retry_list v)
               (busy_list v) (local_success v)
  | RequestError _ =>
      mkLocals (downloaded v) (already_waited v) (wait v)
               (retry_list v ++ [a]) (busy_list v) (local_success v)
  end.

(** What is logged and slept after an attempt with outcome [o]. *)
Definition reaction (retry : bool) (v : Locals) (a : App) (o : Outcome)
  : list Event :=
  match o with
  | Success => []
  | Wait =>
      let w := if already_waited v then wait v * 2 else wait v in
      [EvLog warning (ServerBusy w); EvSleep w]
  | Retry =>
      if retry then [EvLog warning (SaidRetry (package_name a))]
      else [EvLog exception (FailedSecondTime (package_name a))]
  | RequestError e => [EvLog error (RequestFailed (package_name a) e)]
  end.

(** The test of line 52. *)
Definition known (v : Locals) (a : App) : Prop :=
  package_name a ∈ downloaded v ∨ package_name a ∈ local_success v.

(** One run of the loop of [_download], as a relation: from locals [v],
    over [apps], the events [evs] happen and the locals end as [v'].
    An app is either skipped (line 53) or attempted, with some outcome
    chosen by the store. *)
Inductive attempts (retry : bool)
  : Locals -> list App -> list Event -> Locals -> Prop :=
  | attempts_nil v : attempts retry v [] [] v
  | attempts_skip v a apps evs v' :
      known v a ->
      attempts retry v apps evs v' ->
      attempts retry v (a :: apps) evs v'
  | attempts_call v a o apps evs v' :
      ~ known v a ->
      attempts retry (after retry v a o) apps evs v' ->
      attempts retry v (a :: apps)
               (EvDownload a o :: reaction retry v a o ++ evs) v'.

(** Outcomes after which line 70 or 76 appends the app to [retry_list]. *)
Definition queued (retry : bool) (o : Outcome) : bool :=
  match o with
  | RequestError _ => true
  | Retry => retry
  | _ => false
  end.

Definition is_wait (o : Outcome) : bool :=
  match o with Wait => true | _ => false end.

Definition is_success (o : Outcome) : bool :=
  match o with Success => true | _ => false end.

(** The apps of the calls whose outcome satisfies [f], in call order. *)
Definition picked (f : Outcome -> bool) (calls : list (App * Outcome))
  : list App :=
  map fst (List.filter (fun c => f c.2) calls).

Definition names (l : list App) : gset string :=
  list_to_set (map package_name l).

(** The sleeps that a sequence of outcomes causes, from a given state of
    the busy backoff. *)
Fixpoint backoff (flag : bool) (w : Z) (outs : list Outcome) : list Z :=
  match outs with
  | [] => []
  | Wait :: r => let w1 := if flag then w * 2 else w in w1 :: backoff true w1 r
  | Success :: r | Retry :: r => backoff false 30 r
  | RequestError _ :: r => backoff flag w r
  end.

(** No call of [download] is for an identifier in [seen], nor for one
    that an earlier call of the list downloaded with success. *)
Fixpoint fresh (seen : gset string) (calls : list (App * Outcome)) : Prop :=
  match calls with
  | [] => True
  | (a, o) :: r =>
      (package_name a ∉ seen) /\
      fresh (if is_success o then seen ∪ {[package_name a]} else seen) r
  end.

Definition is_request_error (o : Outcome) : bool :=
  match o with RequestError _ => true | _ => false end.

Definition is_retry (o : Outcome) : bool :=
  match o with Retry => true | _ => false end.

(** The apps logged as "failed a second time, skipping" (line 73). *)
Definition skipped_second_time (evs : list Event) : list string :=
  omap (fun e => match e with
                 | EvLog exception (FailedSecondTime n) => Some n
                 | _ => None
                 end) evs.

(** *** The classification of section 4.3 of the specification

    This follows the words of the specification, not the code: each
    entry of the input falls in one class, decided by the identifiers
    seen so far and, if the entry is attempted, by the outcome. *)
Inductive Class : Type :=
  | Skipped | Succeeded | InBusy | InRetry | Dropped.

#[global] Instance Class_eq_dec : EqDecision Class.
Proof. solve_decision. Defined.

Definition class_of (retry_enabled : bool) (o : Outcome) : Class :=
  match o with
  | Success => Succeeded
  | Wait => InBusy
  | Retry => if retry_enabled then InRetry else Dropped
  | RequestError _ => InRetry
  end.

(** [seen]: the downloaded set together with the identifiers downloaded
    earlier in the same call; [outs]: the outcomes of the attempts, in
    order. *)
Fixpoint classes (retry_enabled : bool) (seen : gset string)
    (apps : list App) (outs : list Outcome) : list Class :=
  match apps with
  | [] => []
  | a :: rest =>
      if decide (package_name a ∈ seen) then
        Skipped :: classes retry_enabled seen rest outs
      else
        match outs with
        | [] => []
        | o :: outs' =>
            class_of retry_enabled o
              :: classes retry_enabled
                   (if is_success o then seen ∪ {[package_name a]} else seen)
                   rest outs'
        end
  end.

(** The entries of class [c], in input order. *)
Fixpoint of_class (c : Class) (apps : list App) (cls : list Class)
  : list App :=
  match apps, cls with
  | a :: apps', k :: cls' =>
      if decide (k = c) then a :: of_class c apps' cls'
      else of_class c apps' cls'
  | _, _ => []
  end.

(** The entries that were attempted: those not skipped. *)
Fixpoint attempted (apps : list App) (cls : list Class) : list App :=
  match apps, cls with
  | a :: apps', k :: cls' =>
      if decide (k = Skipped) then attempted apps' cls'
      else a :: attempted apps' cls'
  | _, _ => []
  end.

(** The state of the busy backoff (the flag and the wait) after a
    sequence of outcomes. *)
Fixpoint backoff_state (flag : bool) (w : Z) (outs : list Outcome)
  : bool * Z :=
  match outs with
  | [] => (flag, w)
  | Wait :: r => backoff_state true (if flag then w * 2 else w) r
  | Success :: r | Retry :: r => backoff_state false 30 r
  | RequestError _ :: r => backoff_state flag w r
  end.

(** The progress lines of the long wait of [crawl] (line 120). *)
Definition waited (evs : list Event) : list Z :=
  omap (fun e => match e with
                 | EvLog info (Waited n) => Some n
                 | _ => None
                 end) evs.

(** What the long wait of [crawl] does: sixty times, sleep 60 and log the
    count. *)
Definition cooldown_trace : list Event :=
  flat_map (fun i => [EvSleep 60; EvLog info (Waited (Z.of_nat (S i)))])
           (seq 0 60).

Arguments cooldown_trace : simpl never.

(** The listing after [more()] appended the page [p]. *)
Definition grown (l : AppList) (p : list App) : AppList :=
  {| name := name l; entries := entries l ++ p |}.

(** A store whose [more()] on the listing [l], from the state [s], gives
    the pages [pages] one after the other and then raises [Maximum],
    leaving the store in state [s']. *)
Inductive pages_then_maximum {St} (api : API St)
  : AppList -> St -> list (list App) -> St -> Prop :=
  | ptm_maximum l s s' :
      more api l s = (Maximum, s') ->
      pages_then_maximum api l s [] s'
  | ptm_page l s p s1 pages s' :
      more api l s = (Page p, s1) ->
      pages_then_maximum api (grown l p) s1 pages s' ->
      pages_then_maximum api l s (p :: pages) s'.

Definition triple {A B C D} (r : A * B * C * D) : A * B * C :=
  let '(a, b, c, _) := r in (a, b, c).

(** A run of the passes of [crawl], in terms of the calls of [download]
    of its four phases: the listings ([c1]), the busy backlog ([c2]), the
    second attempt after the long wait ([c3]) and the final sweep
    ([c4]). *)
Definition phases {St} (api : API St) (app_lists : list AppList)
    (run : Run) (evs : list Event) (c1 c2 c3 c4 : list (App * Outcome))
  : Prop :=
    download_calls evs = c1 ++ c2 ++ c3 ++ c4
    /\ fresh ∅ (c1 ++ c2)
    /\ run_downloaded run = names (picked is_success (c1 ++ c2))
    /\ fresh (run_downloaded run) c3
    /\ fresh (run_downloaded run) c4
    /\ (forall a o, (a, o) ∈ c1 -> exists l, l ∈ app_lists /\ a ∈ entries l)
    /\ run_busy run = picked is_wait c1
    /\ (forall a o, (a, o) ∈ c2 -> a ∈ run_busy run)
    /\ busy_pass run
       = (picked (queued true) c2, picked is_wait c2,
          names (picked is_success c2))
    /\ (forall a o, (a, o) ∈ c3 -> a ∈ picked is_wait c2)
    /\ match picked is_wait c2 with
       | [] =>
           cooldown_pass run = None /\ c3 = [] /\ waited evs = []
           /\ run_retry run
              = picked (queued true) c1 ++ picked (queued true) c2
       | _ :: _ =>
           (exists s2,
              c3 = download_calls
                     (_download api (picked is_wait c2)
                                (run_downloaded run) true s2).2
              /\ cooldown_pass run
                 = Some (triple (_download api (picked is_wait c2)
                                   (run_downloaded run) true s2).1.1))
           /\ cooldown_pass run
              = Some (picked (queued true) c3, picked is_wait c3,
                      names (picked is_success c3))
           /\ waited evs = map Z.of_nat (seq 1 60)
           /\ (exists e1 e2, evs = e1 ++ cooldown_trace ++ e2)
           /\ run_retry run
              = picked (queued true) c1 ++ picked (queued true) c3
       end
    /\ (forall a o, (a, o) ∈ c4 -> a ∈ run_retry run)
    /\ final_pass run
       = (picked (queued false) c4, picked is_wait c4,
          names (picked is_success c4))
    /\ run_app_lists run = app_lists
    /\ (forall l a, l ∈ app_lists -> a ∈ entries l ->
        package_name a ∈ names (picked is_success c1)
        \/ exists o, (a, o) ∈ c1)
    /\ (forall a, a ∈ run_busy run ->
        package_name a ∈ run_downloaded run \/ exists o, (a, o) ∈ c2)
    /\ (forall a, a ∈ picked is_wait c2 ->
        package_name a ∈ run_downloaded run ∪ names (picked is_success c3)
        \/ exists o, (a, o) ∈ c3)
    /\ (forall a, a ∈ run_retry run ->
        package_name a ∈ run_downloaded run ∪ names (picked is_success c4)
        \/ exists o, (a, o) ∈ c4).

(** The events of a run of [crawl], pass by pass.  [head] holds the
    events of discovery and of the loop over the listings; [e2] is the
    call of [_download] over the busy backlog (line 108); [e3] is the
    call of [_download] over the busy list that this pass returned
    (line 122), which is made, after the long wait, only if that list is
    not empty; [e4] is the final sweep (line 128), which starts in the
    state that the pass before it left and ends the run. *)
Definition anatomy {St} (api : API St) (run : Run) (s' : St)
    (evs head e2 e3 e4 : list Event) : Prop :=
  let busy := run_busy run in
  let local_busy := (busy_pass run).1.2 in
  let d := run_downloaded run in
  waited head = []
  /\ exists d0 s1 s2 s3 mid,
       _download api busy d0 true s1 = ((busy_pass run, d0), s2, e2)
       /\ d = d0 ∪ (busy_pass run).2
       /\ _download api (run_retry run) d false s3
          = ((final_pass run, d), s', e4)
       /\ evs = head ++ [EvLog info StartedFailed] ++ e2
                ++ [EvLog info (FinishedFailed
                                  (length busy) (size (busy_pass run).2)
                                  (length (busy_pass run).1.1)
                                  (length local_busy))]
                ++ mid ++ e4
       /\ match local_busy with
          | [] => cooldown_pass run = None /\ e3 = [] /\ s3 = s2 /\ mid = []
          | _ :: _ =>
              exists r,
                cooldown_pass run = Some r
                /\ _download api local_busy d true s2 = ((r, d), s3, e3)
                /\ mid = [EvLog info (StillBusy (length local_busy))]
                         ++ cooldown_trace
                         ++ [EvLog info StartedFailedTwice] ++ e3
                         ++ [EvLog info (FinishedFailedTwice
                                           (length local_busy) (size r.2)
                                           (length r.1.1) (length r.1.2))]
          end.

(** Events of discovery: no call of [download], no progress line of the
    long wait. *)
Definition quiet (evs : list Event) : Prop :=
  download_calls evs = [] /\ waited evs = [].

(** *** Stores for concrete runs *)

(** The number of calls of [download] for the identifier [n]. *)
Definition invocations (n : string) (evs : list Event) : nat :=
  length (List.filter (fun c => String.eqb (package_name c.1) n)
                      (download_calls evs)).

(** Two categories, each with one listing that holds the app [e]. *)
Definition listed_twice (outs : list Outcome) : Script :=
  {| outcomes := outs;
     catalog := [("A", [[app "e"]]); ("B", [[app "e"]])] |}.

(** One listing with the apps [a] and [b]. *)
Definition one_listing (outs : list Outcome) : Script :=
  {| outcomes := outs; catalog := [("A", [[app "a"; app "b"]])] |}.

(** The scenario of the specification: listing A with p1, p2, p3 and
    listing B with p2, p4. *)
Definition overlapping (outs : list Outcome) : Script :=
  {| outcomes := outs;
     catalog := [("A", [[app "p1"; app "p2"; app "p3"]]);
                 ("B", [[app "p2"; app "p4"]])] |}.

(** ** Further observations on the events *)

(** The waits announced by "Server was busy, waiting ... seconds"
    (line 63), in order. *)
Definition busy_warnings (evs : list Event) : list Z :=
  omap (fun e => match e with
                 | EvLog warning (ServerBusy w) => Some w
                 | _ => None
                 end) evs.

(** The events [e] are those of some call of [_download] on [apps]. *)
Definition pass_of {St} (api : API St) (apps : list App) (retry : bool)
    (e : list Event) : Prop :=
  exists d s, e = (_download api apps d retry s).2.

(** The apps of all listings, in order (with repetitions). *)
Definition all_entries (app_lists : list AppList) : list App :=
  concat (map entries app_lists).

(** Events of paging and logging only. *)
Definition paging_only (evs : list Event) : Prop :=
  Forall (fun e => match e with
                   | EvMore _ _ | EvLog _ _ => True
                   | _ => False
                   end) evs.

(** The events of a run of [crawl]: those of discovery ([e0]), of the loop
    over the listings ([e1]), of the pass over the busy backlog ([e2]),
    of the second attempt ([e3], with the long wait before it) and of
    the final sweep ([e4]), with log lines in between. *)
Definition shape {St} (api : API St) (app_lists : list AppList) (run : Run)
    (evs e0 e1 e2 e3 e4 mid1 mid2 : list Event) : Prop :=
  let c1 := download_calls e1 in
  let c2 := download_calls e2 in
  let c3 := download_calls e3 in
  paging_only e0
  /\ waited e0 = []
  /\ waited e1 = []
  /\ evs = e0 ++ e1 ++ [EvLog info StartedFailed] ++ e2 ++ mid1 ++ e3
           ++ mid2 ++ e4
  /\ run_app_lists run = app_lists
  /\ (exists passes,
        Forall2 (fun l e => pass_of api (entries l) true e) app_lists passes
        /\ c1 = concat (map download_calls passes)
        /\ sleeps e1 = concat (map sleeps passes))
  /\ run_busy run = picked is_wait c1
  /\ pass_of api (run_busy run) true e2
  /\ pass_of api (run_retry run) false e4
  /\ ((picked is_wait c2 = [] /\ e3 = [] /\ mid2 = []
       /\ (exists n1 n2 n3 n4,
             mid1 = [EvLog info (FinishedFailed n1 n2 n3 n4)])
       /\ cooldown_pass run = None
       /\ run_retry run
          = picked (queued true) c1 ++ picked (queued true) c2)
      \/ (picked is_wait c2 <> []
          /\ pass_of api (picked is_wait c2) true e3
          /\ (exists n1 n2 n3 n4,
                mid2 = [EvLog info (FinishedFailedTwice n1 n2 n3 n4)])
          /\ (exists n1 n2 n3 n4 n5,
                mid1 = [EvLog info (FinishedFailed n1 n2 n3 n4);
                        EvLog info (StillBusy n5)] ++ cooldown_trace
                       ++ [EvLog info StartedFailedTwice])
          /\ cooldown_pass run <> None
          /\ run_retry run
             = picked (queued true) c1 ++ picked (queued true) c3)).

(** The scripted store with a [download] that always ends in [o]. *)
Definition always (o : Outcome) : API Script :=
  {| store := store scripted;
     categories := categories scripted;
     subcategories := subcategories scripted;
     discover_apps := discover_apps scripted;
     more := more scripted;
     download := fun _ s => (o, s) |}.

(** The names of the listings whose [more()] raised [Maximum], in
    order. *)
Definition maxima (evs : list Event) : list string :=
  omap (fun e => match e with
                 | EvMore n Maximum => Some n
                 | _ => None
                 end) evs.

(** ** [crawl_meta_data] *)

(** What the metadata crawl does, in program order: the events of
    discovery, [app.proto.category.CopyFrom(sub_category)],
    [LOGGER.info(app)], [app.write_to_file()] and
    [LOGGER.info(sub_category)]. *)
Inductive MetaEvent : Type :=
  | MetaDiscovery (e : Event)
  | CopyCategory (app : App) (sub_category : string)
  | LogApp (app : App)
  | WriteToFile (app : App)
  | LogSubcategory (sub_category : string).

(** The body of [for app in app_list]. *)
Definition meta_app_body (sub_category : string) (evs : list MetaEvent)
    (app : App) : list MetaEvent :=
  evs ++ [CopyCategory app sub_category; LogApp app; WriteToFile app].

(** The body of [for app_list in app_lists].  Modelled from the spec: the
    attribute [subcategory.proto] of the absent listing class is the
    "subcategory context" of the listing; it is taken as a function
    [subcategory_proto] of the listing. *)
Definition meta_listing_body (subcategory_proto : AppList -> string)
    (evs : list MetaEvent) (app_list : AppList) : list MetaEvent :=
  let sub_category := subcategory_proto app_list in
  foldl (meta_app_body sub_category) evs (entries app_list)
  ++ [LogSubcategory sub_category].

(** [crawl_meta_data(api)] *)
Definition crawl_meta_data {St} (fuel : nat) (api : API St)
    (subcategory_proto : AppList -> string) (s : St)
  : option (list AppList * St * list MetaEvent) :=
  match _discover_apps fuel api s with
  | None => None
  | Some (app_lists, s1, e0) =>
      Some (app_lists, s1,
            foldl (meta_listing_body subcategory_proto)
                  (map MetaDiscovery e0) app_lists)
  end.

(** The apps written to file, in order. *)
Definition written (evs : list MetaEvent) : list App :=
  omap (fun e => match e with WriteToFile a => Some a | _ => None end) evs.

(** The category copies, in order. *)
Definition categorised (evs : list MetaEvent) : list (App * string) :=
  omap (fun e => match e with
                 | CopyCategory a c => Some (a, c)
                 | _ => None
                 end) evs.

(** The events of discovery within a metadata crawl. *)
Definition discovery_part (evs : list MetaEvent) : list Event :=
  omap (fun e => match e with MetaDiscovery e0 => Some e0 | _ => None end) evs.

(** ** The script part: the base directory and the start of a crawl *)

Inductive Raised : Type := IndexError | TypeError.

Inductive Result (A : Type) : Type :=
  | Returns (a : A)
  | Raises (e : Raised).

Arguments Returns {A} _.
Arguments Raises {A} _.

(** [s.replace(old, new)] of Python for an [old] of one character: every
    occurrence is replaced. *)
Fixpoint replace (old : ascii) (new : string) (s : string) : string :=
  match s with
  | EmptyString => EmptyString
  | String c r =>
      if Ascii.eqb c old then new +:+ replace old new r
      else String c (replace old new r)
  end.

Fixpoint endswith_slash (s : string) : bool :=
  match s with
  | EmptyString => false
  | String c EmptyString => Ascii.eqb c "/"
  | String _ r => endswith_slash r
  end.

Definition startswith_slash (s : string) : bool :=
  match s with
  | String c _ => Ascii.eqb c "/"
  | EmptyString => false
  end.

(** [os.path.join(a, b)] of Python on a POSIX system, for two
    components. *)
Definition join (a b : string) : string :=
  if startswith_slash b then b
  else if match a with EmptyString => true | _ => endswith_slash a end
       then a +:+ b
       else a +:+ "/" +:+ b.

(** What the script reads from its environment: [os.getenv('HOME')] and
    [os.getcwd()]. *)
Record Env : Type := mkEnv {
  HOME : option string;
  getcwd : string
}.

(** Lines 219-225: [base_dir] from [args.base_dir], whose default is
    [os.getenv('HOME')] and so may be [None]. *)
Definition base_dir (env : Env) (preliminary_base_dir : option string)
  : Result string :=
  match preliminary_base_dir with
  | None => Raises TypeError
  | Some EmptyString => Raises IndexError
  | Some (String c _ as p) =>
      if Ascii.eqb c "/" then Returns p
      else if Ascii.eqb c "~" then
        match HOME env with
        | Some home => Returns (replace "~" home p)
        | None => Raises TypeError
        end
      else Returns (join (getcwd env) p)
  end.

(** Line 226. *)
Definition log_path (base : string) : string := join base "logs".

Inductive Store : Type := GooglePlay | FDroid.

(** The arguments as [parse_args] returns them: [--store] is required
    and one of the two choices. *)
Record Args : Type := mkArgs {
  args_api : Store;
  args_meta : bool;
  args_base_dir : option string;
  args_credentials : option string
}.

(** What the script does, in program order, after parsing its
    arguments. *)
Inductive Step : Type :=
  | MakeDirs (path : string)
  | LogHandlers (path : string)
  | LogCredentialsRequired
  | Exit (code : Z)
  | Print (text : string)
  | NewAPI (store : Store) (credentials : option string) (base : string)
  | CallCrawlMetaData
  | CallCrawl.

(** Lines 216-249. *)
Definition main (env : Env) (args : Args) : Result (list Step) :=
  match base_dir env (args_base_dir args) with
  | Raises e => Raises e
  | Returns base =>
      let setup := [MakeDirs (log_path base); LogHandlers (log_path base)] in
      match args_api args, args_credentials args with
      | GooglePlay, None => Returns (setup ++ [LogCredentialsRequired; Exit 1])
      | _, _ =>
          if args_meta args then
            Returns (setup ++ [NewAPI (args_api args) (args_credentials args)
                                      base;
                               CallCrawlMetaData])
          else
            Returns (setup ++ [Print base;
                               NewAPI (args_api args) (args_credentials args)
                                      base;
                               CallCrawl])
      end
  end.

(** A path that begins with a slash. *)
Definition absolute (s : string) : Prop := startswith_slash s = true.

(** Whether the character [c] occurs in [s]. *)
Fixpoint occurs (c : ascii) (s : string) : bool :=
  match s with
  | EmptyString => false
  | String x r => Ascii.eqb x c || occurs c r
  end.

(** ** Lemmas on the loop of [_download] *)

Lemma download_body_skip {St} (api : API St) retry v a s :
  known v a -> download_body api retry v a s = (v, s, []).
Proof.
  intros H. unfold download_body, known in *.
  destruct (decide _) as [_|N]; [reflexivity | tauto].
Qed.

Lemma download_body_call {St} (api : API St) retry v a s :
  ~ known v a ->
  download_body api retry v a s =
    (after retry v a (download api a s).1, (download api a s).2,
     EvDownload a (download api a s).1
       :: reaction retry v a (download api a s).1).
Proof.
  intros H. unfold download_body, known in *.
  destruct (decide _) as [Y|_]; [tauto|].
  unfold bind, call_download.
  destruct (download api a s) as [o s1]. simpl.
  destruct o; simpl; try reflexivity.
  destruct retry; reflexivity.
Qed.

Lemma for_each_cons {St A B} (f : A -> B -> M St A) a x xs s :
  for_each f a (x :: xs) s =
    (let '(a1, s1, e1) := f a x s in
     let '(a2, s2, e2) := for_each f a1 xs s1 in
     (a2, s2, e1 ++ e2)).
Proof. reflexivity. Qed.

Lemma loop_attempts {St} (api : API St) retry apps :
  forall v s,
    attempts retry v apps
      (for_each (download_body api retry) v apps s).2
      (for_each (download_body api retry) v apps s).1.1.
Proof.
  induction apps as [|a apps IH]; intros v s.
  - constructor.
  - rewrite for_each_cons.
    destruct (decide (known v a)) as [K|K].
    + rewrite (download_body_skip api retry v a s K).
      specialize (IH v s).
      destruct (for_each _ v apps s) as [[v2 s2] e2]. simpl in *.
      now apply attempts_skip.
    + rewrite (download_body_call api retry v a s K).
      set (o := (download api a s).1). set (s1 := (download api a s).2).
      specialize (IH (after retry v a o) s1).
      destruct (for_each _ (after retry v a o) apps s1) as [[v2 s2] e2].
      simpl in *. now apply attempts_call.
Qed.

Lemma download_calls_app e1 e2 :
  download_calls (e1 ++ e2) = download_calls e1 ++ download_calls e2.
Proof. apply omap_app. Qed.

Lemma sleeps_app e1 e2 : sleeps (e1 ++ e2) = sleeps e1 ++ sleeps e2.
Proof. apply omap_app. Qed.

Lemma download_calls_reaction retry v a o :
  download_calls (reaction retry v a o) = [].
Proof. destruct o, retry; reflexivity. Qed.

Lemma download_calls_call retry v a o evs :
  download_calls (EvDownload a o :: reaction retry v a o ++ evs)
  = (a, o) :: download_calls evs.
Proof.
  change (EvDownload a o :: reaction retry v a o ++ evs)
    with ([EvDownload a o] ++ reaction retry v a o ++ evs).
  rewrite !download_calls_app, download_calls_reaction. reflexivity.
Qed.

Lemma sleeps_call retry v a o evs :
  sleeps (EvDownload a o :: reaction retry v a o ++ evs)
  = backoff (already_waited v) (wait v) [o] ++ sleeps evs.
Proof.
  change (EvDownload a o :: reaction retry v a o ++ evs)
    with ([EvDownload a o] ++ reaction retry v a o ++ evs).
  rewrite !sleeps_app. destruct o, retry; reflexivity.
Qed.

(** The caller's set is the same object with the same members. *)
Lemma attempts_downloaded retry v apps evs v' :
  attempts retry v apps evs v' -> downloaded v' = downloaded v.
Proof.
  induction 1 as [| |v a o apps evs v' K H IH]; try done.
  rewrite IH. now destruct o.
Qed.

Lemma attempts_retry_list retry v apps evs v' :
  attempts retry v apps evs v' ->
  retry_list v' = retry_list v ++ picked (queued retry) (download_calls evs).
Proof.
  induction 1 as [v| |v a o apps evs v' K H IH].
  - simpl. now rewrite app_nil_r.
  - done.
  - rewrite IH, download_calls_call. unfold picked. simpl.
    destruct o, retry; simpl; rewrite <- ?app_assoc; reflexivity.
Qed.

Lemma attempts_busy_list retry v apps evs v' :
  attempts retry v apps evs v' ->
  busy_list v' = busy_list v ++ picked is_wait (download_calls evs).
Proof.
  induction 1 as [v| |v a o apps evs v' K H IH].
  - simpl. now rewrite app_nil_r.
  - done.
  - rewrite IH, download_calls_call. unfold picked. simpl.
    destruct o, retry; simpl; rewrite <- ?app_assoc; reflexivity.
Qed.

Lemma attempts_local_success retry v apps evs v' :
  attempts retry v apps evs v' ->
  local_success v' =
    local_success v ∪ names (picked is_success (download_calls evs)).
Proof.
  induction 1 as [v| |v a o apps evs v' K H IH].
  - unfold names, picked. simpl. set_solver.
  - done.
  - rewrite IH, download_calls_call. unfold names, picked. simpl.
    destruct o; simpl; set_solver.
Qed.

Lemma attempts_sleeps retry v apps evs v' :
  attempts retry v apps evs v' ->
  sleeps evs =
    backoff (already_waited v) (wait v) (map snd (download_calls evs)).
Proof.
  induction 1 as [v| |v a o apps evs v' K H IH].
  - reflexivity.
  - done.
  - rewrite sleeps_call, download_calls_call, IH.
    destruct o; reflexivity.
Qed.

Lemma attempts_fresh retry v apps evs v' :
  attempts retry v apps evs v' ->
  fresh (downloaded v ∪ local_success v) (download_calls evs).
Proof.
  induction 1 as [v| |v a o apps evs v' K H IH].
  - exact I.
  - done.
  - rewrite download_calls_call. simpl. split.
    + unfold known in K. rewrite elem_of_union. exact K.
    + destruct o; simpl in *; try exact IH.
      rewrite <- (assoc_L (∪)). exact IH.
Qed.

Lemma attempts_calls_length retry v apps evs v' :
  attempts retry v apps evs v' ->
  (length (download_calls evs) <= length apps)%nat.
Proof.
  induction 1; [simpl; lia | simpl; lia |].
  rewrite download_calls_call. simpl. lia.
Qed.

Lemma skipped_second_time_call retry v a o evs :
  skipped_second_time (EvDownload a o :: reaction retry v a o ++ evs)
  = (if is_retry o && negb retry then [package_name a] else [])
    ++ skipped_second_time evs.
Proof.
  change (EvDownload a o :: reaction retry v a o ++ evs)
    with ([EvDownload a o] ++ reaction retry v a o ++ evs).
  unfold skipped_second_time. rewrite !omap_app.
  destruct o, retry; reflexivity.
Qed.

Lemma attempts_skipped_second_time retry v apps evs v' :
  attempts retry v apps evs v' ->
  skipped_second_time evs =
    if retry then []
    else map package_name (picked is_retry (download_calls evs)).
Proof.
  induction 1 as [v| |v a o apps evs v' K H IH].
  - now destruct retry.
  - done.
  - rewrite skipped_second_time_call, download_calls_call, IH.
    unfold picked. destruct o, retry; reflexivity.
Qed.

(** The run of one whole call. *)
Lemma _download_attempts {St} (api : API St) apps d retry s :
  exists v',
    attempts retry (init_locals d) apps (_download api apps d retry s).2 v'
    /\ (_download api apps d retry s).1.1
       = (retry_list v', busy_list v', local_success v', downloaded v').
Proof.
  pose proof (loop_attempts api retry apps (init_locals d) s) as H.
  unfold _download, download_loop, bind.
  destruct (for_each _ (init_locals d) apps s) as [[v' s'] evs].
  simpl in *. exists v'. rewrite app_nil_r. split; [exact H | reflexivity].
Qed.

Lemma attempts_classes retry v apps evs v' :
  attempts retry v apps evs v' ->
  let calls := download_calls evs in
  let cls := classes retry (downloaded v ∪ local_success v) apps
                     (map snd calls) in
  length cls = length apps
  /\ map fst calls = attempted apps cls
  /\ retry_list v' = retry_list v ++ of_class InRetry apps cls
  /\ busy_list v' = busy_list v ++ of_class InBusy apps cls
  /\ local_success v'
       = local_success v ∪ names (of_class Succeeded apps cls)
  /\ skipped_second_time evs
       = map package_name (of_class Dropped apps cls).
Proof.
  induction 1 as [v|v a apps evs v' K H IH|v a o apps evs v' K H IH].
  - simpl. rewrite !app_nil_r. repeat split. unfold names. simpl. set_solver.
  - simpl in *. destruct (decide _) as [_|N].
    2:{ exfalso. apply N. unfold known in K. set_solver. }
    simpl. destruct IH as (E1 & E2 & E3 & E4 & E5 & E6).
    repeat split; try assumption. now rewrite E1.
  - cbv zeta in *. rewrite download_calls_call, skipped_second_time_call.
    simpl. destruct (decide _) as [Y|_].
    { exfalso. apply K. unfold known. set_solver. }
    assert (Hseen : (if is_success o
                     then downloaded v ∪ local_success v ∪ {[package_name a]}
                     else downloaded v ∪ local_success v)
                    = downloaded (after retry v a o)
                        ∪ local_success (after retry v a o)).
    { destruct o; simpl; try reflexivity. now rewrite (assoc_L (∪)). }
    rewrite Hseen. simpl in IH.
    destruct IH as (E1 & E2 & E3 & E4 & E5 & E6).
    rewrite E3, E4, E5, E6, E2. clear E3 E4 E5 E6 E2.
    split; [simpl; now rewrite E1|].
    destruct o, retry; simpl; rewrite <- ?app_assoc;
      repeat split; try reflexivity; unfold names; simpl; set_solver.
Qed.

Lemma backoff_app flag w o1 o2 :
  backoff flag w (o1 ++ o2)
  = backoff flag w o1
    ++ backoff (backoff_state flag w o1).1 (backoff_state flag w o1).2 o2.
Proof.
  revert flag w. induction o1 as [|o o1 IH]; intros flag w; [reflexivity|].
  destruct o; simpl; rewrite IH; reflexivity.
Qed.

Lemma backoff_length flag w outs :
  length (backoff flag w outs) = length (List.filter is_wait outs).
Proof.
  revert flag w. induction outs as [|o outs IH]; intros flag w; [reflexivity|].
  destruct o; simpl; rewrite IH; reflexivity.
Qed.

Lemma backoff_no_wait outs :
  List.filter is_wait outs = [] ->
  backoff false 30 outs = [] /\ backoff_state false 30 outs = (false, 30).
Proof.
  induction outs as [|o outs IH]; intros H; [split; reflexivity|].
  destruct o; simpl in *; try discriminate; auto.
Qed.

Lemma picked_wait_length calls :
  length (picked is_wait calls) = length (List.filter is_wait (map snd calls)).
Proof.
  unfold picked. rewrite length_map.
  induction calls as [|[a o] calls IH]; [reflexivity|].
  simpl. destruct (is_wait o); simpl; now rewrite IH.
Qed.

Lemma picked_wait_nil calls :
  picked is_wait calls = [] -> List.filter is_wait (map snd calls) = [].
Proof.
  intros H. apply length_zero_iff_nil.
  rewrite <- picked_wait_length, H. reflexivity.
Qed.

(** The sleeps of a whole call are those of the backoff started afresh. *)
Lemma _download_sleeps {St} (api : API St) apps d retry s :
  sleeps (_download api apps d retry s).2
  = backoff false 30 (map snd (download_calls (_download api apps d retry s).2)).
Proof.
  destruct (_download_attempts api apps d retry s) as (v' & H & _).
  apply attempts_sleeps in H. exact H.
Qed.

Lemma map_snd_calls (pre post : list (App * Outcome)) :
  map snd (pre ++ post) = map snd pre ++ map snd post.
Proof. apply map_app. Qed.

(** ** One call of [_download] *)

(** C4. With [retry=False], the returned [retry_list] holds exactly the
    apps whose download raised [RequestError], once per such outcome and
    in call order: an app whose download raised [Retry] is never appended
    (it is logged as failed a second time and dropped), and an app whose
    download raised [RequestError] always is.  This holds for every
    store, input list, downloaded set and store state. *)
Theorem no_retry_queues_request_errors_only {St} (api : API St) apps d s :
  let '(retry_list0, _, _, _, _, evs) := _download api apps d false s in
  retry_list0 = picked is_request_error (download_calls evs)
  /\ skipped_second_time evs
     = map package_name (picked is_retry (download_calls evs)).
Proof.
  destruct (_download_attempts api apps d false s) as (v' & H & E).
  destruct (_download api apps d false s) as [[[[[rl bl] ls] d'] s'] evs].
  simpl in *. injection E as -> _ _ _.
  rewrite (attempts_retry_list _ _ _ _ _ H).
  rewrite (attempts_skipped_second_time _ _ _ _ _ H).
  split; reflexivity.
Qed.

(** C6. One call of [_download] puts each entry of its input in exactly
    one of the five classes of the specification (skipped as duplicate,
    succeeded, in [busy_list], in [retry_list], dropped): the list of
    classes is as long as the input, so the loop reaches every entry;
    [download] was called for the entries that were not skipped, in
    order; the two returned lists are the entries of their classes; the
    dropped entries are the ones logged as such; and the returned set
    holds exactly the identifiers whose download succeeded in this
    call. *)
Theorem download_classifies_every_entry {St} (api : API St) apps d retry s :
  let '(retry_list0, busy_list0, newly_downloaded, _, _, evs) :=
    _download api apps d retry s in
  let calls := download_calls evs in
  let cls := classes retry d apps (map snd calls) in
  length cls = length apps
  /\ map fst calls = attempted apps cls
  /\ retry_list0 = of_class InRetry apps cls
  /\ busy_list0 = of_class InBusy apps cls
  /\ newly_downloaded = names (of_class Succeeded apps cls)
  /\ skipped_second_time evs = map package_name (of_class Dropped apps cls)
  /\ newly_downloaded = names (picked is_success calls).
Proof.
  destruct (_download_attempts api apps d retry s) as (v' & H & E).
  destruct (_download api apps d retry s) as [[[[[rl bl] ls] d'] s'] evs].
  simpl in *. injection E as -> -> -> _.
  pose proof (attempts_classes _ _ _ _ _ H) as C. cbv zeta in C.
  simpl in C. rewrite (right_id_L ∅ (∪)) in C.
  destruct C as (E1 & E2 & E3 & E4 & E5 & E6).
  rewrite (left_id_L ∅ (∪)) in E5.
  repeat split; try assumption.
  rewrite (attempts_local_success _ _ _ _ _ H). simpl.
  now rewrite (left_id_L ∅ (∪)).
Qed.

(** C10. A call of [_download] leaves the [downloaded] set that was
    passed to it as it was; the identifiers downloaded in the call are
    told to the caller through the returned set alone, which holds none
    of the identifiers already in [downloaded]; it is the loop of [crawl]
    that adds them to [downloaded]. *)
Theorem download_leaves_downloaded_alone {St} (api : API St) apps d retry s :
  let '(_, _, local_success0, downloaded_after, _, evs) :=
    _download api apps d retry s in
  downloaded_after = d
  /\ local_success0 = names (picked is_success (download_calls evs))
  /\ local_success0 ## d
  /\ forall retry0 busy0 listing,
       (listing_body api (retry0, busy0, d) listing s).1.1
       = let '(local_retry, local_busy, local_success1, _) :=
           (_download api (entries listing) d true s).1.1 in
         (retry0 ++ local_retry, busy0 ++ local_busy, d ∪ local_success1).
Proof.
  destruct (_download_attempts api apps d retry s) as (v' & H & E).
  pose proof (attempts_downloaded _ _ _ _ _ H) as D.
  pose proof (attempts_local_success _ _ _ _ _ H) as L.
  pose proof (attempts_fresh _ _ _ _ _ H) as F.
  destruct (_download api apps d retry s) as [[[[[rl bl] ls] d'] s'] evs] eqn:R.
  simpl in *. injection E as -> -> -> ->.
  rewrite (left_id_L ∅ (∪)) in L. rewrite (right_id_L ∅ (∪)) in F.
  repeat split; try assumption.
  - rewrite L. clear -F. revert F. generalize (download_calls evs) d.
    induction l as [|[a o] l IH]; intros d0 F.
    + unfold names, picked. simpl. set_solver.
    + simpl in F. destruct F as [N F]. apply IH in F.
      unfold names, picked in *. simpl.
      destruct o; simpl in *; set_solver.
  - intros retry0 busy0 listing.
    destruct (_download_attempts api (entries listing) d true s)
      as (v2 & H2 & E2).
    apply attempts_downloaded in H2.
    unfold listing_body, bind, log, emit.
    destruct (_download api (entries listing) d true s)
      as [[[[[rl2 bl2] ls2] d2] s2] evs2].
    simpl in *. injection E2 as -> -> -> ->. now rewrite H2.
Qed.

(** C5. The busy backoff of one call of [_download].  The wait starts at
    30 with the flag cleared, so the first [Wait] outcome of a call
    sleeps 30; of two consecutive [Wait] outcomes the second sleeps twice
    as long as the first (hence each further consecutive one doubles
    again); after a success or a [Retry] outcome the next [Wait] outcome
    sleeps 30 again.  On the loop body: a [Wait] outcome doubles the wait
    if the flag is set and sets the flag, a success or a [Retry] outcome
    puts the wait back to 30 and clears the flag.  The position of a
    sleep among the sleeps of the call is the number of [Wait] outcomes
    before it. *)
Theorem busy_backoff_doubles_and_resets {St} (api : API St) apps d retry s :
  let evs := (_download api apps d retry s).2 in
  let calls := download_calls evs in
  (wait (init_locals d) = 30 /\ already_waited (init_locals d) = false)
  /\ (forall pre a post,
        calls = pre ++ (a, Wait) :: post -> picked is_wait pre = [] ->
        exists rest, sleeps evs = 30 :: rest)
  /\ (forall pre a b post,
        calls = pre ++ (a, Wait) :: (b, Wait) :: post ->
        exists before w rest,
          sleeps evs = before ++ w :: w * 2 :: rest
          /\ length before = length (picked is_wait pre))
  /\ (forall pre a o b post,
        calls = pre ++ (a, o) :: (b, Wait) :: post ->
        o = Success \/ o = Retry ->
        exists before rest,
          sleeps evs = before ++ 30 :: rest
          /\ length before = length (picked is_wait pre))
  /\ (forall v a s0,
        ~ known v a ->
        let '(v', _, _) := download_body api retry v a s0 in
        match (download api a s0).1 with
        | Wait =>
            wait v' = (if already_waited v then wait v * 2 else wait v)
            /\ already_waited v' = true
        | Success | Retry => wait v' = 30 /\ already_waited v' = false
        | RequestError _ => True
        end).
Proof.
  intros evs calls.
  pose proof (_download_sleeps api apps d retry s) as S.
  fold evs in S. fold calls in S.
  split; [split; reflexivity|]. split; [|split; [|split]].
  - intros pre a post E N. rewrite S, E, map_snd_calls, backoff_app.
    apply picked_wait_nil, backoff_no_wait in N. destruct N as [-> ->].
    simpl. eauto.
  - intros pre a b post E. rewrite S, E, map_snd_calls, backoff_app.
    simpl. eexists _, _, _. split; [reflexivity|].
    now rewrite backoff_length, picked_wait_length.
  - intros pre a o b post E O. rewrite S, E, map_snd_calls, backoff_app.
    exists (backoff false 30 (map snd pre)).
    destruct O as [-> | ->]; simpl; eexists; (split; [reflexivity|]);
      now rewrite backoff_length, picked_wait_length.
  - intros v a s0 K. rewrite (download_body_call api retry v a s0 K).
    destruct (download api a s0).1; simpl; auto.
Qed.

(** C9. A [RequestError] outcome leaves the wait and the flag of the busy
    backoff as they were and causes no sleep; so when, in one call, a
    [Wait] outcome is followed by a [RequestError] outcome and then by
    another [Wait] outcome, the second sleep is still twice the first. *)
Theorem request_error_keeps_backoff {St} (api : API St) apps d retry s :
  let evs := (_download api apps d retry s).2 in
  let calls := download_calls evs in
  (forall v a s0 e,
     ~ known v a ->
     (download api a s0).1 = RequestError e ->
     let '(v', _, evs1) := download_body api retry v a s0 in
     wait v' = wait v /\ already_waited v' = already_waited v
     /\ sleeps evs1 = [])
  /\ (forall pre a b e c post,
        calls = pre ++ (a, Wait) :: (b, RequestError e) :: (c, Wait) :: post ->
        exists before w rest,
          sleeps evs = before ++ w :: w * 2 :: rest
          /\ length before = length (picked is_wait pre)).
Proof.
  intros evs calls.
  pose proof (_download_sleeps api apps d retry s) as S.
  fold evs in S. fold calls in S. split.
  - intros v a s0 e K O. rewrite (download_body_call api retry v a s0 K).
    rewrite O. simpl. auto.
  - intros pre a b e c post E. rewrite S, E, map_snd_calls, backoff_app.
    simpl. eexists _, _, _. split; [reflexivity|].
    now rewrite backoff_length, picked_wait_length.
Qed.

(** ** The passes of [crawl] *)

Lemma picked_app f c1 c2 : picked f (c1 ++ c2) = picked f c1 ++ picked f c2.
Proof. unfold picked. now rewrite List.filter_app, map_app. Qed.

Lemma names_app l1 l2 : names (l1 ++ l2) = names l1 ∪ names l2.
Proof. unfold names. rewrite map_app. apply list_to_set_app_L. Qed.

Lemma elem_of_names n l :
  n ∈ names l <-> exists a, a ∈ l /\ package_name a = n.
Proof.
  unfold names. rewrite elem_of_list_to_set, list_elem_of_fmap.
  split; intros (a & H1 & H2); exists a; auto.
Qed.

Lemma elem_of_picked f a calls :
  a ∈ picked f calls <-> exists o, (a, o) ∈ calls /\ f o = true.
Proof.
  unfold picked. rewrite list_elem_of_fmap. split.
  - intros ([b o] & -> & H). apply list_elem_of_In, filter_In in H.
    destruct H as [H1 H2]. exists o. split; [now apply list_elem_of_In | exact H2].
  - intros (o & H1 & H2). exists (a, o). split; [reflexivity|].
    apply list_elem_of_In, filter_In. split; [now apply list_elem_of_In | exact H2].
Qed.

Lemma fresh_app seen c1 c2 :
  fresh seen (c1 ++ c2)
  <-> fresh seen c1 /\ fresh (seen ∪ names (picked is_success c1)) c2.
Proof.
  revert seen. induction c1 as [|[a o] c1 IH]; intros seen; simpl.
  - unfold names, picked. simpl. rewrite (right_id_L ∅ (∪)). tauto.
  - rewrite IH. unfold picked. destruct o; simpl; try tauto.
    fold (picked is_success c1). unfold names at 2. simpl.
    fold (names (picked is_success c1)).
    rewrite (assoc_L (∪)). tauto.
Qed.

Lemma fresh_not_seen seen calls a o :
  fresh seen calls -> (a, o) ∈ calls -> package_name a ∉ seen.
Proof.
  revert seen. induction calls as [|[b p] calls IH]; intros seen F H.
  - inversion H.
  - simpl in F. destruct F as [N F]. apply elem_of_cons in H as [E|H].
    + now injection E as -> ->.
    + specialize (IH _ F H). destruct (is_success p); set_solver.
Qed.

(** [download] is called for apps of the input only. *)
Lemma attempts_calls_input retry v apps evs v' :
  attempts retry v apps evs v' ->
  forall a o, (a, o) ∈ download_calls evs -> a ∈ apps.
Proof.
  induction 1 as [v| |v a o apps evs v' K H IH]; intros b p Hin.
  - inversion Hin.
  - apply elem_of_cons. right. eauto.
  - rewrite download_calls_call in Hin. apply elem_of_cons in Hin as [E|Hin].
    + injection E as -> ->. apply elem_of_cons. now left.
    + apply elem_of_cons. right. eauto.
Qed.

(** Every app of the input is skipped, its identifier being in
    [downloaded] or among the successes of the call, or attempted. *)
Lemma attempts_covers retry v apps evs v' :
  attempts retry v apps evs v' ->
  forall a, a ∈ apps ->
    package_name a ∈ downloaded v ∪ local_success v'
    \/ exists o, (a, o) ∈ download_calls evs.
Proof.
  induction 1 as [v|v a0 apps evs v' K H IH|v a0 o apps evs v' K H IH];
    intros a Ha.
  - inversion Ha.
  - apply elem_of_cons in Ha as [->|Ha]; [|auto].
    left. rewrite (attempts_local_success _ _ _ _ _ H).
    unfold known in K. set_solver.
  - rewrite download_calls_call.
    apply elem_of_cons in Ha as [->|Ha].
    + right. exists o. apply elem_of_cons. now left.
    + destruct (IH a Ha) as [L|(o' & R)].
      * left. replace (downloaded (after retry v a0 o)) with (downloaded v)
          in L by (now destruct o). exact L.
      * right. exists o'. apply elem_of_cons. now right.
Qed.

Lemma _download_covers {St} (api : API St) apps d retry s :
  forall a, a ∈ apps ->
    package_name a
      ∈ d ∪ names (picked is_success
                     (download_calls (_download api apps d retry s).2))
    \/ exists o, (a, o) ∈ download_calls (_download api apps d retry s).2.
Proof.
  destruct (_download_attempts api apps d retry s) as (v' & H & _).
  intros a Ha. destruct (attempts_covers _ _ _ _ _ H a Ha) as [L|R]; [|auto].
  left. rewrite (attempts_local_success _ _ _ _ _ H) in L. simpl in L.
  now rewrite (left_id_L ∅ (∪)) in L.
Qed.

Ltac splits := repeat match goal with |- _ /\ _ => split end.
Ltac refl := match goal with |- _ = _ => reflexivity end.

Lemma cooldown_run {St} (s : St) : cooldown s = (60, s, cooldown_trace).
Proof. reflexivity. Qed.

Lemma waited_app e1 e2 : waited (e1 ++ e2) = waited e1 ++ waited e2.
Proof. apply omap_app. Qed.

Lemma download_calls_log lvl m evs :
  download_calls (EvLog lvl m :: evs) = download_calls evs.
Proof. reflexivity. Qed.

Lemma waited_log_other lvl m evs :
  match m with Waited _ => False | _ => True end ->
  waited (EvLog lvl m :: evs) = waited evs.
Proof. destruct lvl, m; simpl; tauto. Qed.

Lemma attempts_waited retry v apps evs v' :
  attempts retry v apps evs v' -> waited evs = [].
Proof.
  induction 1 as [v| |v a o apps evs v' K H IH]; try done.
  change (EvDownload a o :: reaction retry v a o ++ evs)
    with ([EvDownload a o] ++ reaction retry v a o ++ evs).
  rewrite !waited_app, IH. destruct o, retry; reflexivity.
Qed.

(** What one call of [_download] returns and causes, in terms of its
    calls of [download]. *)
Lemma _download_pass {St} (api : API St) apps d retry s :
  exists s' e,
    _download api apps d retry s
    = ((picked (queued retry) (download_calls e),
        picked is_wait (download_calls e),
        names (picked is_success (download_calls e)), d), s', e)
    /\ fresh d (download_calls e)
    /\ (forall a o, (a, o) ∈ download_calls e -> a ∈ apps)
    /\ waited e = [].
Proof.
  destruct (_download_attempts api apps d retry s) as (v' & H & E).
  destruct (_download api apps d retry s) as [[r s'] e]. simpl in *.
  exists s', e. subst r.
  rewrite (attempts_retry_list _ _ _ _ _ H), (attempts_busy_list _ _ _ _ _ H),
    (attempts_local_success _ _ _ _ _ H), (attempts_downloaded _ _ _ _ _ H).
  simpl. rewrite (left_id_L ∅ (∪)).
  split; [reflexivity|]. split; [|split].
  - pose proof (attempts_fresh _ _ _ _ _ H) as F. simpl in F.
    now rewrite (right_id_L ∅ (∪)) in F.
  - exact (attempts_calls_input _ _ _ _ _ H).
  - exact (attempts_waited _ _ _ _ _ H).
Qed.

(** The loop over the listings, in terms of its calls of [download]. *)
Lemma listings_pass {St} (api : API St) app_lists :
  forall retry busy d s,
  exists s' e,
    for_each (listing_body api) (retry, busy, d) app_lists s
    = ((retry ++ picked (queued true) (download_calls e),
        busy ++ picked is_wait (download_calls e),
        d ∪ names (picked is_success (download_calls e))), s', e)
    /\ fresh d (download_calls e)
    /\ (forall a o, (a, o) ∈ download_calls e ->
         exists l, l ∈ app_lists /\ a ∈ entries l)
    /\ waited e = [].
Proof.
  induction app_lists as [|l app_lists IH]; intros retry busy d s.
  - exists s, []. simpl. unfold picked, names. simpl.
    rewrite !app_nil_r, (right_id_L ∅ (∪)).
    repeat split. intros a o H. inversion H.
  - rewrite for_each_cons. unfold listing_body at 1. unfold bind, log, emit.
    destruct (_download_pass api (entries l) d true s)
      as (s1 & e1 & E1 & F1 & I1 & W1).
    rewrite E1. cbn -[for_each].
    edestruct IH as (s2 & e2 & E2 & F2 & I2 & W2). rewrite E2.
    match goal with
    | |- exists s' e, (_, _, ?ev) = _ /\ _ => exists s2, ev
    end.
    match goal with
    | |- context [download_calls ?ev] =>
        assert (Hc : download_calls ev = download_calls e1 ++ download_calls e2)
          by (rewrite download_calls_log, !download_calls_app,
                download_calls_log; simpl; now rewrite app_nil_r);
        assert (Hw : waited ev = [])
          by (rewrite waited_log_other, !waited_app, waited_log_other,
                W1, W2; [reflexivity | exact I | exact I]);
        rewrite Hw, !Hc
    end.
    rewrite !picked_app, !names_app, <- !app_assoc, <- !(assoc_L (∪)).
    split; [reflexivity|]. split; [|split; [|reflexivity]].
    + apply fresh_app. split; assumption.
    + intros a o H. apply elem_of_app in H as [H|H].
      * exists l. split; [apply elem_of_cons; now left | eauto].
      * destruct (I2 _ _ H) as (l2 & H1 & H2). exists l2.
        split; [apply elem_of_cons; now right | exact H2].
Qed.

Lemma listings_cover {St} (api : API St) app_lists :
  forall retry busy d s l a,
    l ∈ app_lists -> a ∈ entries l ->
    let e := (for_each (listing_body api) (retry, busy, d) app_lists s).2 in
    package_name a ∈ d ∪ names (picked is_success (download_calls e))
    \/ exists o, (a, o) ∈ download_calls e.
Proof.
  induction app_lists as [|l0 app_lists IH]; intros retry busy d s l a Hl Ha.
  - inversion Hl.
  - cbv zeta.
    pose proof (_download_covers api (entries l0) d true s) as C.
    destruct (_download_pass api (entries l0) d true s)
      as (s1 & e1 & E1 & _).
    rewrite E1 in C. cbn [snd] in C.
    specialize (IH (retry ++ picked (queued true) (download_calls e1))
                   (busy ++ picked is_wait (download_calls e1))
                   (d ∪ names (picked is_success (download_calls e1)))
                   s1 l a).
    destruct (listings_pass api app_lists
                (retry ++ picked (queued true) (download_calls e1))
                (busy ++ picked is_wait (download_calls e1))
                (d ∪ names (picked is_success (download_calls e1))) s1)
      as (s2 & e2 & E2 & _).
    cbv zeta in IH. rewrite E2 in IH. cbn [snd] in IH.
    assert (R : exists m1 m2,
               (for_each (listing_body api) (retry, busy, d)
                         (l0 :: app_lists) s).2
               = EvLog info m1 :: (e1 ++ [EvLog info m2]) ++ e2).
    { rewrite for_each_cons. unfold listing_body at 1.
      unfold bind, log, emit. rewrite E1. cbn -[for_each]. rewrite E2.
      eexists _, _. reflexivity. }
    destruct R as (m1 & m2 & ->).
    rewrite download_calls_log, !download_calls_app, download_calls_log.
    replace (download_calls []) with (@nil (App * Outcome)) by reflexivity.
    rewrite app_nil_r, picked_app, names_app.
    apply elem_of_cons in Hl as [->|Hl].
    + destruct (C a Ha) as [L|(o & R)].
      * left. set_solver.
      * right. exists o. apply elem_of_app. now left.
    + destruct (IH Hl Ha) as [L|(o & R)].
      * left. set_solver.
      * right. exists o. apply elem_of_app. now right.
Qed.

Lemma crawl_passes_phases {St} (api : API St) app_lists s :
  exists c1 c2 c3 c4,
    phases api app_lists (crawl_passes api app_lists s).1.1
           (crawl_passes api app_lists s).2 c1 c2 c3 c4.
Proof.
  unfold phases, crawl_passes, bind.
  destruct (listings_pass api app_lists [] [] ∅ s)
    as (s1 & e1 & E1 & F1 & I1 & W1).
  pose proof (listings_cover api app_lists [] [] ∅ s) as V1.
  cbv zeta in V1. rewrite E1 in V1. cbn [snd] in V1.
  rewrite (left_id_L ∅ (∪)) in V1.
  rewrite E1. cbn [app]. rewrite (left_id_L ∅ (∪)).
  set (c1 := download_calls e1) in *.
  pose proof (_download_covers api (picked is_wait c1)
                (names (picked is_success c1)) true s1) as V2.
  destruct (_download_pass api (picked is_wait c1)
              (names (picked is_success c1)) true s1)
    as (s2 & e2 & E2 & F2 & I2 & W2).
  unfold log at 1 2, emit. cbn -[_download cooldown].
  rewrite E2 in V2. cbn [snd] in V2.
  rewrite E2. cbn -[_download cooldown].
  set (c2 := download_calls e2) in *.
  set (d := names (picked is_success c1) ∪ names (picked is_success c2)).
  assert (Hd : d = names (picked is_success (c1 ++ c2)))
    by (now rewrite picked_app, names_app).
  destruct (picked is_wait c2) as [|b lb] eqn:LB.
  - cbn -[_download].
    destruct (_download_pass api (picked (queued true) c1
                                  ++ picked (queued true) c2) d false s2)
      as (s4 & e4 & E4 & F4 & I4 & W4).
    pose proof (_download_covers api (picked (queued true) c1
                  ++ picked (queued true) c2) d false s2) as V4.
    rewrite E4 in V4. cbn [snd] in V4.
    rewrite E4. cbn -[cooldown_trace seq].
    exists c1, c2, [], (download_calls e4).
    rewrite app_nil_r.
    repeat rewrite ?download_calls_app, ?download_calls_log.
    repeat rewrite ?waited_app, ?waited_log_other by exact I.
    rewrite W1, W2, W4. fold c1 c2. rewrite LB. cbn [app].
    splits; try assumption; try refl; try exact I.
    + apply fresh_app. rewrite (left_id_L ∅ (∪)). split; assumption.
    + intros a o H. inversion H.
    + intros a H. inversion H.
  - unfold log, emit. rewrite cooldown_run. cbn -[_download cooldown_trace seq].
    destruct (_download_pass api (b :: lb) d true s2)
      as (s3 & e3 & E3 & F3 & I3 & W3).
    pose proof (_download_covers api (b :: lb) d true s2) as V3.
    rewrite E3 in V3. cbn [snd] in V3.
    rewrite E3. cbn -[_download cooldown_trace seq].
    destruct (_download_pass api (picked (queued true) c1
                ++ picked (queued true) (download_calls e3)) d false s3)
      as (s4 & e4 & E4 & F4 & I4 & W4).
    pose proof (_download_covers api (picked (queued true) c1
                  ++ picked (queued true) (download_calls e3)) d false s3)
      as V4.
    rewrite E4 in V4. cbn [snd] in V4.
    rewrite E4. cbn -[_download cooldown_trace seq].
    exists c1, c2, (download_calls e3), (download_calls e4).
    rewrite !app_nil_r, LB.
    repeat rewrite ?download_calls_app, ?download_calls_log.
    repeat rewrite ?waited_app, ?waited_log_other by exact I.
    rewrite W1, W2, W3, W4. fold c1 c2.
    replace (download_calls cooldown_trace) with (@nil (App * Outcome))
      by reflexivity.
    replace (waited cooldown_trace) with (map Z.of_nat (seq 1 60))
      by reflexivity.
    generalize cooldown_trace. intros ct.
    cbn [app]. rewrite app_nil_r.
    splits; try assumption; try refl; try exact I.
    + apply fresh_app. rewrite (left_id_L ∅ (∪)). split; assumption.
    + exists s2. rewrite E3. split; reflexivity.
    + match goal with
      | |- exists a b, ?pre ++ ?x :: ?e ++ ?y :: ?z :: (ct ++ ?r1) ++ ?r2 = _ =>
          exists (pre ++ x :: e ++ [y; z]), (r1 ++ r2)
      end.
      repeat first [rewrite <- app_assoc | rewrite <- app_comm_cons].
      reflexivity.
Qed.

(** ** Discovery *)

Lemma quiet_app e1 e2 : quiet e1 -> quiet e2 -> quiet (e1 ++ e2).
Proof.
  unfold quiet. intros [A B] [C D].
  now rewrite download_calls_app, waited_app, A, B, C, D.
Qed.

Lemma more_loop_quiet {St} (api : API St) fuel :
  forall l s l' s' e,
    more_loop fuel api l s = Some (l', s', e) -> quiet e.
Proof.
  induction fuel as [|fuel IH]; intros l s l' s' e H; [discriminate|].
  simpl in H. unfold pbind, total, call_more in H.
  destruct (more api l s) as [[p|] s1].
  - destruct (more_loop fuel api _ s1) as [[[l2 s2] e2]|] eqn:R;
      [|discriminate].
    injection H as <- <- <-. apply IH in R.
    apply (quiet_app [_]); [split; reflexivity | exact R].
  - injection H as <- <- <-. split; reflexivity.
Qed.

Lemma subcategories_quiet {St} (api : API St) cats :
  forall subs s, quiet (for_each (subcategories_body api) subs cats s).2.
Proof.
  induction cats as [|c cats IH]; intros subs s; [split; reflexivity|].
  rewrite for_each_cons. unfold subcategories_body at 1.
  destruct (subcategories api c s) as [l s1].
  specialize (IH (subs ++ l) s1).
  destruct (for_each _ (subs ++ l) cats s1) as [[a2 s2] e2]. exact IH.
Qed.

Lemma discover_body_quiet {St} (api : API St) fuel acc sub s acc' s' e :
  discover_body fuel api acc sub s = Some (acc', s', e) -> quiet e.
Proof.
  unfold discover_body, pbind, total. destruct acc as [ls n].
  destruct (discover_apps api sub s) as [[l|] s1]; simpl.
  - destruct (entries l).
    + intros H. injection H as <- <- <-. split; reflexivity.
    + destruct (more_loop fuel api l s1) as [[[l2 s2] e2]|] eqn:R;
        [|discriminate].
      intros H. injection H as <- <- <-. rewrite app_nil_r.
      exact (more_loop_quiet _ _ _ _ _ _ _ R).
  - intros H. injection H as <- <- <-. split; reflexivity.
Qed.

Lemma pfor_each_quiet {St A B} (f : A -> B -> P St A) l :
  (forall a x s a' s' e, f a x s = Some (a', s', e) -> quiet e) ->
  forall a s a' s' e, pfor_each f a l s = Some (a', s', e) -> quiet e.
Proof.
  intros Hf. induction l as [|x l IH]; intros a s a' s' e H.
  - injection H as <- <- <-. split; reflexivity.
  - simpl in H. unfold pbind in H.
    destruct (f a x s) as [[[a1 s1] e1]|] eqn:R1; [|discriminate].
    destruct (pfor_each f a1 l s1) as [[[a2 s2] e2]|] eqn:R2; [|discriminate].
    injection H as <- <- <-. apply quiet_app; eauto.
Qed.

Lemma _discover_apps_quiet {St} (api : API St) fuel s app_lists s' e :
  _discover_apps fuel api s = Some (app_lists, s', e) -> quiet e.
Proof.
  unfold _discover_apps, pbind, total.
  destruct (categories api s) as [cats s1].
  pose proof (subcategories_quiet api cats [] s1) as Q1.
  destruct (for_each (subcategories_body api) [] cats s1) as [[subs s2] e2].
  simpl in *.
  destruct (pfor_each (discover_body fuel api) ([], 0%nat) subs s2)
    as [[[[ls n] s3] e3]|] eqn:R; [|discriminate].
  intros H. injection H as <- <- <-.
  apply (pfor_each_quiet _ _ (discover_body_quiet api fuel)) in R.
  apply quiet_app; [exact Q1|].
  apply (quiet_app [_]); [split; reflexivity|].
  apply quiet_app; [exact R|]. split; reflexivity.
Qed.

(** A run of [crawl] is a discovery followed by the passes. *)
Lemma crawl_run {St} (api : API St) fuel s run s' evs :
  crawl fuel api s = Some (run, s', evs) ->
  exists app_lists s0 e0,
    _discover_apps fuel api s = Some (app_lists, s0, e0)
    /\ quiet e0
    /\ crawl_passes api app_lists s0
       = (run, s', (crawl_passes api app_lists s0).2)
    /\ evs = (EvLog info (Crawling (store api)) :: e0)
             ++ (crawl_passes api app_lists s0).2.
Proof.
  unfold crawl, pbind, total. simpl.
  destruct (_discover_apps fuel api s) as [[[ls s0] e0]|] eqn:R;
    [|discriminate].
  destruct (crawl_passes api ls s0) as [[r s9] e9] eqn:R9.
  intros H. injection H as <- <- <-.
  exists ls, s0, e0. rewrite R9. simpl.
  splits; try refl. eapply _discover_apps_quiet; eauto.
Qed.

(** [crawl] returns whenever its discovery does. *)
Lemma crawl_returns {St} (api : API St) fuel s app_lists s0 e0 :
  _discover_apps fuel api s = Some (app_lists, s0, e0) ->
  exists run s' evs, crawl fuel api s = Some (run, s', evs).
Proof.
  intros R. unfold crawl, pbind, total. simpl. rewrite R.
  destruct (crawl_passes api app_lists s0) as [[r s9] e9]. eauto.
Qed.

(** C8. If [more()] on a listing gives K pages and then raises
    [Maximum], the loop [while ALL] of [_discover_apps] ends (for any
    fuel above K), the listing it leaves holds the apps it had followed
    by those of the K pages, in order, and [more()] was called K + 1
    times, the call that raised [Maximum] being the last; the listing is
    then appended to the discovered listings as it is. *)
Theorem listing_growth_terminates {St} (api : API St) l s pages s' :
  pages_then_maximum api l s pages s' ->
  forall fuel, (length pages < fuel)%nat ->
    let result :=
      {| name := name l; entries := entries l ++ concat pages |} in
    let trace :=
      map (fun p => EvMore (name l) (Page p)) pages
      ++ [EvMore (name l) Maximum;
          EvLog info (Yielded (name l) (length (entries result)))] in
    more_loop fuel api l s = Some (result, s', trace)
    /\ forall sub s0 app_lists app_count,
         discover_apps api sub s0 = (Some l, s) ->
         entries l <> [] ->
         discover_body fuel api (app_lists, app_count) sub s0
         = Some ((app_lists ++ [result],
                  (app_count + length (entries result))%nat), s', trace).
Proof.
  intros H fuel Hf.
  assert (L : more_loop fuel api l s
              = Some ({| name := name l; entries := entries l ++ concat pages |},
                      s',
                      map (fun p => EvMore (name l) (Page p)) pages
                      ++ [EvMore (name l) Maximum;
                          EvLog info (Yielded (name l)
                            (length (entries l ++ concat pages)))])).
  { revert fuel Hf.
    induction H as [l s s' E|l s p s1 pages s' E H IH]; intros fuel Hf.
    - destruct fuel as [|fuel]; [simpl in Hf; lia|].
      simpl. unfold pbind, total, call_more. rewrite E. simpl.
      rewrite app_nil_r. destruct l; reflexivity.
    - destruct fuel as [|fuel]; [simpl in Hf; lia|].
      simpl in Hf. simpl. unfold pbind, total, call_more. rewrite E.
      fold (grown l p). rewrite (IH fuel) by lia. simpl.
      rewrite <- !app_assoc. reflexivity. }
  split; [exact L|].
  intros sub s0 app_lists app_count D N.
  assert (T : falsy (Some l) = false)
    by (simpl; destruct (entries l); congruence).
  unfold discover_body, pbind, total. rewrite D. cbn -[falsy more_loop].
  rewrite T, L. cbn. rewrite app_nil_r. reflexivity.
Qed.

(** ** Whole runs of [crawl] *)

Lemma crawl_phases {St} (api : API St) fuel s run s' evs :
  crawl fuel api s = Some (run, s', evs) ->
  exists c1 c2 c3 c4, phases api (run_app_lists run) run evs c1 c2 c3 c4.
Proof.
  intros H. apply crawl_run in H.
  destruct H as (app_lists & s0 & e0 & D & [Q1 Q2] & R & ->).
  destruct (crawl_passes_phases api app_lists s0) as (c1 & c2 & c3 & c4 & Ph).
  rewrite R in Ph. simpl in Ph. exists c1, c2, c3, c4.
  generalize dependent ((crawl_passes api app_lists s0).2). intros pe _ Ph.
  unfold phases in *.
  assert (C : download_calls ((EvLog info (Crawling (store api)) :: e0) ++ pe)
              = download_calls pe).
  { rewrite download_calls_app, download_calls_log, Q1. reflexivity. }
  assert (W : waited ((EvLog info (Crawling (store api)) :: e0) ++ pe)
              = waited pe).
  { rewrite waited_app, waited_log_other, Q2 by exact I. reflexivity. }
  rewrite C, W.
  destruct Ph as (P1 & P2 & P3 & P4 & P5 & P6 & P7 & P8 & P9 & P10 & P11
                  & P12 & P13 & P14 & P15 & P16 & P17 & P18).
  rewrite P14 in *. splits; try assumption; try refl.
  destruct (picked is_wait c2); [exact P11|].
  destruct P11 as (A1 & A2 & A3 & (e1 & e2 & A4) & A5).
  splits; try assumption.
  exists ((EvLog info (Crawling (store api)) :: e0) ++ e1), e2.
  rewrite A4, <- app_assoc. reflexivity.
Qed.

Lemma split_at {A} (pre post l1 l2 : list A) x :
  pre ++ x :: post = l1 ++ l2 ->
  (exists k, l1 = pre ++ x :: k /\ post = k ++ l2)
  \/ (exists k, pre = l1 ++ k /\ l2 = k ++ x :: post).
Proof.
  revert l1. induction pre as [|y pre IH]; intros l1 H.
  - destruct l1 as [|z l1]; simpl in *.
    + right. exists []. split; [reflexivity | now subst l2].
    + injection H as -> ->. left. exists l1. split; reflexivity.
  - destruct l1 as [|z l1]; simpl in *.
    + right. exists (y :: pre). split; [reflexivity | now subst l2].
    + injection H as -> H. destruct (IH _ H) as [(k & -> & ->)|(k & -> & ->)].
      * left. exists k. split; reflexivity.
      * right. exists k. split; reflexivity.
Qed.

(** Every entry of the backlog of the final sweep was put there by an
    attempt that ended in [Retry] or [RequestError], in one of the first
    three phases. *)
Lemma phases_retry_origin {St} (api : API St) ls run evs c1 c2 c3 c4 :
  phases api ls run evs c1 c2 c3 c4 ->
  forall a, a ∈ run_retry run ->
    exists o, queued true o = true /\ (a, o) ∈ c1 ++ c2 ++ c3.
Proof.
  intros Ph a Ha. unfold phases in Ph.
  destruct Ph as (P1 & P2 & P3 & P4 & P5 & P6 & P7 & P8 & P9 & P10 & P11
                  & P12 & P13 & P14 & P15 & P16 & P17 & P18).
  assert (R : a ∈ picked (queued true) c1 ++ picked (queued true) c2
                  ++ picked (queued true) c3).
  { destruct (picked is_wait c2).
    - destruct P11 as (_ & -> & _ & E). rewrite E in Ha.
      now rewrite app_nil_r.
    - destruct P11 as (_ & _ & _ & _ & E). rewrite E in Ha.
      rewrite !elem_of_app in *. tauto. }
  rewrite <- !picked_app in R. apply elem_of_picked in R.
  destruct R as (o & R1 & R2). eauto.
Qed.

(** A call of [download] after the listings repeats an earlier call for
    the same app. *)
Lemma phases_later_calls_repeat {St} (api : API St) ls run evs c1 c2 c3 c4 :
  phases api ls run evs c1 c2 c3 c4 ->
  forall k a o post,
    c2 ++ c3 ++ c4 = k ++ (a, o) :: post ->
    exists o', (a, o') ∈ c1 ++ k.
Proof.
  intros Ph k a o post E.
  pose proof (phases_retry_origin _ _ _ _ _ _ _ _ Ph) as RO.
  unfold phases in Ph.
  destruct Ph as (P1 & P2 & P3 & P4 & P5 & P6 & P7 & P8 & P9 & P10 & P11
                  & P12 & P13 & P14 & P15 & P16 & P17 & P18).
  symmetry in E. apply split_at in E as [(k2 & E2 & _)|(k2 & -> & E)].
  - assert (Hin : (a, o) ∈ c2) by (rewrite E2; set_solver).
    apply P8 in Hin. rewrite P7 in Hin. apply elem_of_picked in Hin.
    destruct Hin as (o' & H1 & _). exists o'. set_solver.
  - symmetry in E. apply split_at in E as [(k3 & E3 & _)|(k3 & -> & E)].
    + assert (Hin : (a, o) ∈ c3) by (rewrite E3; set_solver).
      apply P10, elem_of_picked in Hin.
      destruct Hin as (o' & H1 & _). exists o'. set_solver.
    + assert (Hin : (a, o) ∈ c4) by (rewrite E; set_solver).
      apply P12, RO in Hin. destruct Hin as (o' & _ & H1).
      exists o'. set_solver.
Qed.

(** The passes of [crawl] with their events. *)
Lemma crawl_passes_anatomy {St} (api : API St) app_lists s run s' evs :
  crawl_passes api app_lists s = (run, s', evs) ->
  exists head e2 e3 e4,
    anatomy api run s' evs head e2 e3 e4
    /\ phases api app_lists run evs (download_calls head)
              (download_calls e2) (download_calls e3) (download_calls e4).
Proof.
  unfold crawl_passes, bind.
  destruct (listings_pass api app_lists [] [] ∅ s)
    as (s1 & e1 & E1 & F1 & I1 & W1).
  pose proof (listings_cover api app_lists [] [] ∅ s) as V1.
  cbv zeta in V1. rewrite E1 in V1. cbn [snd] in V1.
  rewrite (left_id_L ∅ (∪)) in V1.
  rewrite E1. cbn [app]. rewrite (left_id_L ∅ (∪)).
  set (c1 := download_calls e1) in *.
  pose proof (_download_covers api (picked is_wait c1)
                (names (picked is_success c1)) true s1) as V2.
  destruct (_download_pass api (picked is_wait c1)
              (names (picked is_success c1)) true s1)
    as (s2 & e2 & E2 & F2 & I2 & W2).
  unfold log at 1 2, emit. cbn -[_download cooldown].
  rewrite E2 in V2. cbn [snd] in V2.
  rewrite E2. cbn -[_download cooldown].
  set (c2 := download_calls e2) in *.
  set (d := names (picked is_success c1) ∪ names (picked is_success c2)).
  assert (Hd : d = names (picked is_success (c1 ++ c2)))
    by (now rewrite picked_app, names_app).
  destruct (picked is_wait c2) as [|b lb] eqn:LB.
  - cbn -[_download].
    destruct (_download_pass api (picked (queued true) c1
                                  ++ picked (queued true) c2) d false s2)
      as (s4 & e4 & E4 & F4 & I4 & W4).
    pose proof (_download_covers api (picked (queued true) c1
                  ++ picked (queued true) c2) d false s2) as V4.
    rewrite E4 in V4. cbn [snd] in V4.
    rewrite E4. cbn -[cooldown_trace seq].
    intros H. injection H as <- <- <-.
    exists e1, e2, [], e4. split.
    + unfold anatomy. cbn -[_download]. fold c1 c2.
      split; [exact W1|].
      exists (names (picked is_success c1)), s1, s2, s2, [].
      splits; try refl; try assumption.
      now rewrite app_nil_r.
    + unfold phases. cbn -[_download cooldown_trace seq].
      rewrite app_nil_r.
      repeat rewrite ?download_calls_app, ?download_calls_log.
      repeat rewrite ?waited_app, ?waited_log_other by exact I.
      rewrite W1, W2, W4. fold c1 c2. rewrite ?LB. cbn [app].
      replace (download_calls []) with (@nil (App * Outcome)) by reflexivity.
      splits; try assumption; try refl; try exact I.
      * apply fresh_app. rewrite (left_id_L ∅ (∪)). split; assumption.
      * intros a o H. inversion H.
      * intros a H. inversion H.
  - unfold log, emit. rewrite cooldown_run. cbn -[_download cooldown_trace seq].
    destruct (_download_pass api (b :: lb) d true s2)
      as (s3 & e3 & E3 & F3 & I3 & W3).
    pose proof (_download_covers api (b :: lb) d true s2) as V3.
    rewrite E3 in V3. cbn [snd] in V3.
    rewrite E3. cbn -[_download cooldown_trace seq].
    destruct (_download_pass api (picked (queued true) c1
                ++ picked (queued true) (download_calls e3)) d false s3)
      as (s4 & e4 & E4 & F4 & I4 & W4).
    pose proof (_download_covers api (picked (queued true) c1
                  ++ picked (queued true) (download_calls e3)) d false s3)
      as V4.
    rewrite E4 in V4. cbn [snd] in V4.
    rewrite E4. cbn -[_download cooldown_trace seq].
    remember cooldown_trace as ct eqn:Ct.
    intros H. injection H as <- <- <-.
    exists e1, e2, e3, e4. split.
    + unfold anatomy. rewrite <- Ct. cbn -[_download]. fold c1 c2.
      split; [exact W1|].
      exists (names (picked is_success c1)), s1, s2, s3.
      eexists.
      split; [exact E2|]. split; [reflexivity|]. split; [exact E4|].
      split; [|eexists; split; [reflexivity|]; split; [exact E3|reflexivity]].
      cbn [fst snd].
      repeat first [rewrite <- app_assoc | rewrite <- app_comm_cons].
      rewrite ?app_nil_r. reflexivity.
    + unfold phases. cbn -[_download seq].
      rewrite !app_nil_r.
      repeat rewrite ?download_calls_app, ?download_calls_log.
      repeat rewrite ?waited_app, ?waited_log_other by exact I.
      rewrite W1, W2, W3, W4. fold c1 c2. rewrite ?LB.
      assert (C0 : download_calls ct = []) by (subst ct; reflexivity).
      assert (W0 : waited ct = map Z.of_nat (seq 1 60))
        by (subst ct; reflexivity).
      rewrite C0, W0.
      replace (download_calls []) with (@nil (App * Outcome)) by reflexivity.
      cbn [app]. rewrite ?app_nil_r.
      splits; try assumption; try refl; try exact I.
      * apply fresh_app. rewrite (left_id_L ∅ (∪)). split; assumption.
      * exists s2. rewrite E3. split; reflexivity.
      * subst ct.
        match goal with
        | |- exists a b, ?pre ++ ?x :: ?e ++ ?y :: ?z :: (_ ++ ?r1) ++ ?r2 = _ =>
            exists (pre ++ x :: e ++ [y; z]), (r1 ++ r2)
        end.
        generalize cooldown_trace. intros ct.
        repeat first [rewrite <- app_assoc | rewrite <- app_comm_cons].
        reflexivity.
Qed.

Lemma crawl_anatomy {St} (api : API St) fuel s run s' evs :
  crawl fuel api s = Some (run, s', evs) ->
  exists head e2 e3 e4,
    anatomy api run s' evs head e2 e3 e4
    /\ phases api (run_app_lists run) run evs (download_calls head)
              (download_calls e2) (download_calls e3) (download_calls e4).
Proof.
  intros H. apply crawl_run in H.
  destruct H as (app_lists & s0 & e0 & D & [Q1 Q2] & R & ->).
  destruct (crawl_passes_anatomy api app_lists s0 _ _ _ R)
    as (head & e2 & e3 & e4 & A & Ph).
  generalize dependent ((crawl_passes api app_lists s0).2). intros pe _ A Ph.
  set (pre := EvLog info (Crawling (store api)) :: e0).
  assert (C0 : download_calls pre = []).
  { unfold pre. now rewrite download_calls_log. }
  assert (W0 : waited pre = []).
  { unfold pre. now rewrite waited_log_other by exact I. }
  exists (pre ++ head), e2, e3, e4. split.
  - unfold anatomy in *. destruct A as (Wh & d0 & s1 & s2 & s3 & mid & A1 & A2
                                        & A3 & A4 & A5).
    split; [now rewrite waited_app, W0, Wh|].
    exists d0, s1, s2, s3, mid. splits; try assumption.
    rewrite A4, <- app_assoc. reflexivity.
  - unfold phases in *.
    rewrite !download_calls_app, !waited_app, C0, W0. cbn [app].
    destruct Ph as (P1 & P2 & P3 & P4 & P5 & P6 & P7 & P8 & P9 & P10 & P11
                    & P12 & P13 & P14 & P15 & P16 & P17 & P18).
    rewrite P14 in *. splits; try assumption; try refl.
    destruct (picked is_wait (download_calls e2)); [exact P11|].
    destruct P11 as (B1 & B2 & B3 & (k1 & k2 & B4) & B5).
    splits; try assumption.
    exists (pre ++ k1), k2.
    rewrite B4, <- app_assoc. reflexivity.
Qed.

Lemma fresh_after_success seen k a post :
  fresh seen (k ++ (a, Success) :: post) ->
  forall b o, (b, o) ∈ post -> package_name b <> package_name a.
Proof.
  intros F b o Hb Eq. apply fresh_app in F as [_ F]. simpl in F.
  destruct F as [_ F]. apply (fresh_not_seen _ _ b o F Hb).
  rewrite Eq. set_solver.
Qed.

(** C3, as amended.  In a run of [crawl], once a call of [download] for
    an identifier has succeeded, [download] is not called for that
    identifier again, however many listings hold it; in particular an
    identifier whose first attempt succeeds is attempted once in the
    run and is recorded in [downloaded].  There is one exception: a
    success of the second attempt after the long wait is not recorded,
    so the identifier, which is not attempted again in that pass, can be
    attempted again in the final sweep, and nowhere else.  (An attempt
    that ends in [Wait], [Retry] or [RequestError] is repeated by the
    later listings and passes, so [download] can be called more than
    once for an identifier.) *)
Theorem success_ends_invocations {St} (api : API St) fuel s run s' evs :
  crawl fuel api s = Some (run, s', evs) ->
  exists head e2 e3 e4,
    anatomy api run s' evs head e2 e3 e4
    /\ download_calls evs
       = download_calls head ++ download_calls e2 ++ download_calls e3
           ++ download_calls e4
    /\ forall pre a post,
         download_calls evs = pre ++ (a, Success) :: post ->
         ((forall b o, (b, o) ∈ post -> package_name b <> package_name a)
          \/ exists k1 k2,
               download_calls e3 = k1 ++ (a, Success) :: k2
               /\ pre = download_calls head ++ download_calls e2 ++ k1
               /\ post = k2 ++ download_calls e4
               /\ (forall b o, (b, o) ∈ k2 ->
                   package_name b <> package_name a)
               /\ package_name a ∉ run_downloaded run)
         /\ ((forall b o, (b, o) ∈ pre -> package_name b <> package_name a) ->
             (forall b o, (b, o) ∈ post -> package_name b <> package_name a)
             /\ package_name a ∈ run_downloaded run).
Proof.
  intros H.
  destruct (crawl_anatomy _ _ _ _ _ _ H) as (head & e2 & e3 & e4 & A & Ph).
  exists head, e2, e3, e4. split; [exact A|].
  pose proof (phases_later_calls_repeat _ _ _ _ _ _ _ _ Ph) as Rep.
  unfold phases in Ph.
  destruct Ph as (P1 & P2 & P3 & P4 & P5 & _).
  set (c1 := download_calls head) in *. set (c2 := download_calls e2) in *.
  set (c3 := download_calls e3) in *. set (c4 := download_calls e4) in *.
  set (D := run_downloaded run) in *.
  split; [exact P1|].
  intros pre a post E. rewrite P1 in E.
  (* a success among the calls of the listings and of the busy backlog is
     recorded, and nothing follows it *)
  assert (Early : forall k, c1 ++ c2 = pre ++ (a, Success) :: k ->
                    post = k ++ c3 ++ c4 ->
                    (forall b o, (b, o) ∈ post ->
                       package_name b <> package_name a)
                    /\ package_name a ∈ D).
  { intros k L1 ->. rewrite L1 in P2, P3.
    assert (Hd : package_name a ∈ D).
    { rewrite P3, picked_app, names_app. unfold picked at 2. simpl.
      unfold names at 2. simpl. set_solver. }
    split; [|exact Hd].
    intros b o Hb Eq. rewrite !elem_of_app in Hb. destruct Hb as [Hb|[Hb|Hb]].
    - exact (fresh_after_success _ _ _ _ P2 b o Hb Eq).
    - apply (fresh_not_seen _ _ b o P4 Hb). now rewrite Eq.
    - apply (fresh_not_seen _ _ b o P5 Hb). now rewrite Eq. }
  split.
  - rewrite app_assoc in E. symmetry in E.
    apply split_at in E as [(k & E1 & E2)|(k & -> & E)].
    + left. exact (proj1 (Early k E1 E2)).
    + symmetry in E. apply split_at in E as [(k3 & E3 & ->)|(k3 & -> & E)].
      * right. exists k, k3. rewrite <- !app_assoc.
        splits; try refl; try assumption.
        -- rewrite E3 in P4. exact (fresh_after_success _ _ _ _ P4).
        -- refine (fresh_not_seen _ _ a Success P4 _).
           rewrite E3. set_solver.
      * left. rewrite E in P5. exact (fresh_after_success _ _ _ _ P5).
  - intros Hfirst. symmetry in E.
    apply split_at in E as [(k & E1 & E2)|(k & -> & E)].
    + apply (Early (k ++ c2)).
      * rewrite E1, <- app_assoc. reflexivity.
      * rewrite E2, <- app_assoc. reflexivity.
    + exfalso. destruct (Rep _ _ _ _ E) as (o' & Hin).
      exact (Hfirst _ _ Hin eq_refl).
Qed.

Lemma waited_cooldown_trace : waited cooldown_trace = map Z.of_nat (seq 1 60).
Proof. reflexivity. Qed.

(** C7, as amended.  In a run of [crawl], the long wait (sixty times:
    sleep 60, then a progress line) happens if and only if the busy list
    returned by the pass over the busy backlog is not empty.  It then
    stands between the line that announces it and the second attempt:
    one call of [_download] over that busy list, with [retry=True] and
    the run-wide [downloaded] set, which starts in the state that the
    pass over the busy backlog left and is followed by its closing line
    and the final sweep; there is no progress line before the long wait,
    and without it the final sweep follows the pass over the busy
    backlog at once.  The busy list that the second attempt returns is
    used no further: the retry backlog is the retry list of the listings
    followed by that of the second attempt, the final sweep calls
    [download] only for entries of the backlog, and every entry of the
    backlog has an attempt before the final sweep that ended in [Retry]
    or [RequestError].  (So an entry still busy after the second attempt
    is attempted again exactly when it is in the retry backlog because
    of another attempt.) *)
Theorem cooldown_escalation {St} (api : API St) fuel s run s' evs :
  crawl fuel api s = Some (run, s', evs) ->
  let local_busy := (busy_pass run).1.2 in
  (exists head e2 e3 e4,
     anatomy api run s' evs head e2 e3 e4
     /\ run_retry run
        = picked (queued true) (download_calls head)
          ++ match cooldown_pass run with
             | Some r => r.1.1
             | None => (busy_pass run).1.1
             end
     /\ (forall a o, (a, o) ∈ download_calls e4 -> a ∈ run_retry run)
     /\ (forall a, a ∈ run_retry run ->
         exists o, (o = Retry \/ exists e, o = RequestError e)
                   /\ (a, o) ∈ download_calls head ++ download_calls e2
                                ++ download_calls e3))
  /\ waited evs = (match local_busy with
                   | [] => []
                   | _ :: _ => map Z.of_nat (seq 1 60)
                   end)
  /\ (local_busy <> [] <-> exists e1 e2, evs = e1 ++ cooldown_trace ++ e2)
  /\ (local_busy = [] <-> cooldown_pass run = None).
Proof.
  intros H local_busy.
  destruct (crawl_anatomy _ _ _ _ _ _ H) as (head & e2 & e3 & e4 & A & Ph).
  pose proof (phases_retry_origin _ _ _ _ _ _ _ _ Ph) as RO.
  unfold phases in Ph.
  destruct Ph as (P1 & P2 & P3 & P4 & P5 & P6 & P7 & P8 & P9 & P10 & P11
                  & P12 & P13 & P14 & P15 & P16 & P17 & P18).
  split.
  { exists head, e2, e3, e4. split; [exact A|].
    split; [|split; [exact P12|]].
    - rewrite P9. cbn [fst snd].
      destruct (picked is_wait (download_calls e2)).
      + destruct P11 as (-> & _ & _ & ->). reflexivity.
      + destruct P11 as (_ & -> & _ & _ & ->). reflexivity.
    - intros a Ha. destruct (RO a Ha) as (o & Q & Hin). exists o.
      split; [|exact Hin]. destruct o; try discriminate; eauto. }
  subst local_busy. rewrite P9. cbn [fst snd].
  destruct (picked is_wait (download_calls e2)) as [|b lb].
  - destruct P11 as (B1 & B2 & B3 & B4). splits; try tauto.
    split; [congruence|].
    intros (k1 & k2 & E). rewrite E in B3.
    rewrite !waited_app, waited_cooldown_trace in B3.
    destruct (waited k1); discriminate.
  - destruct P11 as (B1 & B2 & B3 & B4 & B5). splits; try assumption.
    + split; [intros _; exact B4 | intros _; discriminate].
    + split; intros X; congruence.
Qed.

Lemma outcome_cases o :
  o = Success \/ o = Wait \/ queued true o = true.
Proof. destruct o; auto. Qed.

(** What becomes of a discovered entry: its identifier is downloaded, or
    the entry reaches the final sweep, or it is given up as busy after
    the second attempt, or it was on the retry list of the pass over the
    busy backlog when the long wait was entered (the list that line 122
    overwrites). *)
Lemma discovered_entry_fate {St} (api : API St) fuel s run s' evs :
  crawl fuel api s = Some (run, s', evs) ->
  forall l a, l ∈ run_app_lists run -> a ∈ entries l ->
    package_name a ∈ names (picked is_success (download_calls evs))
    \/ a ∈ run_retry run
    \/ (exists r, cooldown_pass run = Some r /\ a ∈ r.1.2)
    \/ (cooldown_pass run <> None /\ a ∈ (busy_pass run).1.1).
Proof.
  intros H l a Hl Ha.
  destruct (crawl_phases _ _ _ _ _ _ H) as (c1 & c2 & c3 & c4 & Ph).
  unfold phases in Ph.
  destruct Ph as (P1 & P2 & P3 & P4 & P5 & P6 & P7 & P8 & P9 & P10 & P11
                  & P12 & P13 & P14 & P15 & P16 & P17 & P18).
  rewrite P1, P9, !picked_app, !names_app. cbn [fst snd].
  rewrite P3, picked_app, names_app in P16, P17.
  assert (S1 : forall o, (a, o) ∈ c1 -> o = Success ->
               package_name a ∈ names (picked is_success c1)).
  { intros o Hin ->. apply elem_of_names. exists a. split; [|reflexivity].
    apply elem_of_picked. eauto. }
  assert (S2 : forall o, (a, o) ∈ c2 -> o = Success ->
               package_name a ∈ names (picked is_success c2)).
  { intros o Hin ->. apply elem_of_names. exists a. split; [|reflexivity].
    apply elem_of_picked. eauto. }
  assert (S3 : forall o, (a, o) ∈ c3 -> o = Success ->
               package_name a ∈ names (picked is_success c3)).
  { intros o Hin ->. apply elem_of_names. exists a. split; [|reflexivity].
    apply elem_of_picked. eauto. }
  assert (R1 : forall o, (a, o) ∈ c1 -> queued true o = true ->
               a ∈ run_retry run).
  { intros o Hin Q.
    assert (a ∈ picked (queued true) c1) by (apply elem_of_picked; eauto).
    destruct (picked is_wait c2).
    - destruct P11 as (_ & _ & _ & ->). set_solver.
    - destruct P11 as (_ & _ & _ & _ & ->). set_solver. }
  destruct (P15 l a Hl Ha) as [L|(o1 & H1)]; [left; set_solver|].
  destruct (outcome_cases o1) as [E|[E|E]];
    [left; specialize (S1 _ H1 E); set_solver | | right; left; eauto].
  subst o1.
  assert (B1 : a ∈ run_busy run)
    by (rewrite P7; apply elem_of_picked; eauto).
  destruct (P16 a B1) as [L|(o2 & H2)]; [left; set_solver|].
  destruct (outcome_cases o2) as [E|[E|E]];
    [left; specialize (S2 _ H2 E); set_solver | |].
  - subst o2.
    assert (B2 : a ∈ picked is_wait c2) by (apply elem_of_picked; eauto).
    destruct (P17 a B2) as [L|(o3 & H3)]; [left; set_solver|].
    destruct (picked is_wait c2) as [|b lb]; [inversion B2|].
    destruct P11 as (_ & C3 & _ & _ & R3).
    destruct (outcome_cases o3) as [E|[E|E]];
      [left; specialize (S3 _ H3 E); set_solver | |].
    + subst o3. right. right. left. eexists. split; [exact C3|].
      cbn [fst snd]. apply elem_of_picked. eauto.
    + right. left. rewrite R3. apply elem_of_app. right.
      apply elem_of_picked. eauto.
  - assert (Q2 : a ∈ picked (queued true) c2)
      by (apply elem_of_picked; eauto).
    destruct (picked is_wait c2) as [|b lb].
    + destruct P11 as (_ & _ & _ & R3). right. left. rewrite R3.
      apply elem_of_app. now right.
    + destruct P11 as (_ & C3 & _). right. right. right.
      split; [congruence | exact Q2].
Qed.

(** ** Concrete runs on the scripted store *)

(** C1, at a failing input.  The listing holds [a] and [b]; the store is
    busy for both, then, in the pass over the busy backlog, answers [a]
    with a request error and is busy for [b] again, and is still busy
    for [b] after the long wait.  The pass over the busy backlog returns
    [a] in its retry list, but line 122 overwrites [local_retry], so the
    retry backlog of the final sweep is empty: [a] was discovered, is
    not downloaded, is not attempted by the final sweep, is not in the
    busy list that is given up after the second attempt, and no line
    says that it was skipped.  By [discovered_entry_fate] this is the
    only way in which a discovered entry gets lost. *)
Theorem busy_pass_retry_list_is_lost :
  match crawl 1 scripted
          (one_listing [Wait; Wait; RequestError "boom"; Wait; Wait]) with
  | Some (run, _, evs) =>
      run_app_lists run = [{| name := "A"; entries := [app "a"; app "b"] |}]
      /\ (busy_pass run).1.1 = [app "a"]
      /\ (busy_pass run).1.2 = [app "b"]
      /\ option_map (fun r => (r.1.1, r.1.2)) (cooldown_pass run)
         = Some ([], [app "b"])
      /\ run_retry run = []
      /\ download_calls evs
         = [(app "a", Wait); (app "b", Wait);
            (app "a", RequestError "boom"); (app "b", Wait);
            (app "b", Wait)]
      /\ elements (run_downloaded run) = []
      /\ skipped_second_time evs = []
  | None => False
  end.
Proof. vm_compute. repeat split. Qed.

(** C2, at a failing input.  The app [e] is in two listings; the store
    is busy for it, then answers with a request error, is busy again in
    the pass over the busy backlog, and lets it through after the long
    wait.  The second attempt returns [e] among its successes, but
    nothing adds them to [downloaded] (lines 103 and 112 do so for the
    other passes), so the final sweep, which finds [e] in the retry
    backlog, downloads it once more. *)
Theorem second_attempt_successes_not_merged :
  match crawl 1 scripted
          (listed_twice [Wait; RequestError "boom"; Wait; Success; Success]) with
  | Some (run, _, evs) =>
      option_map (fun r => (r.1.1, elements r.2)) (cooldown_pass run)
      = Some ([], ["e"%string])
      /\ elements (run_downloaded run) = []
      /\ run_retry run = [app "e"]
      /\ download_calls evs
         = [(app "e", Wait); (app "e", RequestError "boom");
            (app "e", Wait); (app "e", Success); (app "e", Success)]
  | None => False
  end.
Proof. vm_compute. repeat split. Qed.

(** C3 as stated fails: the app [e] is in two listings, the store is
    busy at the first attempt, and [download] is called for [e] a second
    time when the second listing is processed. *)
Lemma busy_entry_is_attempted_again :
  match crawl 1 scripted (listed_twice [Wait; Success]) with
  | Some (run, _, evs) =>
      map entries (run_app_lists run) = [[app "e"]; [app "e"]]
      /\ download_calls evs = [(app "e", Wait); (app "e", Success)]
      /\ invocations "e" evs = 2%nat
      /\ ~ (invocations "e" evs <= 1)%nat
  | None => False
  end.
Proof. vm_compute. repeat split. lia. Qed.

(** C7 as stated fails: the app [e] is still busy after the second
    attempt, yet it is in the run-wide retry backlog (its attempt in the
    second listing ended in a request error) and the final sweep
    attempts it again. *)
Lemma still_busy_entry_is_swept :
  match crawl 1 scripted
          (listed_twice [Wait; RequestError "boom"; Wait; Wait; Success]) with
  | Some (run, _, evs) =>
      option_map (fun r => r.1.2) (cooldown_pass run) = Some [app "e"]
      /\ run_retry run = [app "e"]
      /\ download_calls evs
         = [(app "e", Wait); (app "e", RequestError "boom");
            (app "e", Wait); (app "e", Wait); (app "e", Success)]
      /\ elements (final_pass run).2 = ["e"%string]
  | None => False
  end.
Proof. vm_compute. repeat split. Qed.

(** ** Instances of the theorems that have hypotheses *)

(** C5, on four apps answered busy, busy, success, busy: the sleeps are
    30, 60 and 30. *)
Lemma busy_backoff_doubles_and_resets_witness :
  let apps := [app "a"; app "b"; app "c"; app "d"] in
  let s := {| outcomes := [Wait; Wait; Success; Wait]; catalog := [] |} in
  let evs := (_download scripted apps ∅ true s).2 in
  sleeps evs = [30; 60; 30]
  /\ picked is_wait [] = []
  /\ (exists rest, sleeps evs = 30 :: rest)
  /\ (exists before w rest,
        sleeps evs = before ++ w :: w * 2 :: rest /\ length before = 0%nat)
  /\ (exists before rest,
        sleeps evs = before ++ 30 :: rest /\ length before = 2%nat)
  /\ ~ known (init_locals ∅) (app "a")
  /\ (let '(v', _, _) :=
        download_body scripted true (init_locals ∅) (app "a") s in
      wait v' = 30 /\ already_waited v' = true).
Proof.
  intros apps s evs.
  destruct (busy_backoff_doubles_and_resets scripted apps ∅ true s)
    as (H0 & H1 & H2 & H3 & H4).
  assert (K : ~ known (init_locals ∅) (app "a")).
  { unfold known. simpl. intros [X|X]; exact (not_elem_of_empty _ X). }
  split; [reflexivity|]. split; [reflexivity|].
  split; [exact (H1 [] (app "a")
                    [(app "b", Wait); (app "c", Success); (app "d", Wait)]
                    eq_refl eq_refl)|].
  split; [exact (H2 [] (app "a") (app "b")
                    [(app "c", Success); (app "d", Wait)] eq_refl)|].
  split; [exact (H3 [(app "a", Wait); (app "b", Wait)] (app "c") Success
                    (app "d") [] eq_refl (or_introl eq_refl))|].
  split; [exact K|]. exact (H4 (init_locals ∅) (app "a") s K).
Defined.

(** C9, on three apps answered busy, request error, busy: the sleeps are
    30 and 60. *)
Lemma request_error_keeps_backoff_witness :
  let apps := [app "a"; app "b"; app "c"] in
  let s := {| outcomes := [Wait; RequestError "boom"; Wait]; catalog := [] |} in
  let s0 := {| outcomes := [RequestError "boom"]; catalog := [] |} in
  let evs := (_download scripted apps ∅ true s).2 in
  sleeps evs = [30; 60]
  /\ ~ known (init_locals ∅) (app "a")
  /\ (download scripted (app "a") s0).1 = RequestError "boom"
  /\ (let '(v', _, evs1) :=
        download_body scripted true (init_locals ∅) (app "a") s0 in
      wait v' = wait (init_locals ∅)
      /\ already_waited v' = already_waited (init_locals ∅)
      /\ sleeps evs1 = [])
  /\ (exists before w rest,
        sleeps evs = before ++ w :: w * 2 :: rest /\ length before = 0%nat).
Proof.
  intros apps s s0 evs.
  destruct (request_error_keeps_backoff scripted apps ∅ true s) as (H1 & H2).
  assert (K : ~ known (init_locals ∅) (app "a")).
  { unfold known. simpl. intros [X|X]; exact (not_elem_of_empty _ X). }
  split; [reflexivity|]. split; [exact K|]. split; [reflexivity|].
  split; [exact (H1 (init_locals ∅) (app "a") s0 "boom"%string K eq_refl)|].
  exact (H2 [] (app "a") (app "b") "boom"%string (app "c") [] eq_refl).
Defined.

(** C8, on a listing with one app whose [more()] gives two pages. *)
Lemma listing_growth_terminates_witness :
  let l := {| name := "A"; entries := [app "e"] |} in
  let s := {| outcomes := [];
              catalog := [("A", [[app "f"; app "g"]; [app "h"]])] |} in
  let s' := {| outcomes := []; catalog := [("A", [])] |} in
  let pages := [[app "f"; app "g"]; [app "h"]] in
  pages_then_maximum scripted l s pages s'
  /\ (length pages < 3)%nat
  /\ more_loop 3 scripted l s
     = Some ({| name := "A";
                entries := [app "e"; app "f"; app "g"; app "h"] |}, s',
             [EvMore "A" (Page [app "f"; app "g"]);
              EvMore "A" (Page [app "h"]);
              EvMore "A" Maximum;
              EvLog info (Yielded "A" 4)]).
Proof.
  intros l s s' pages.
  assert (H : pages_then_maximum scripted l s pages s').
  { eapply ptm_page; [reflexivity|].
    eapply ptm_page; [reflexivity|].
    apply ptm_maximum. reflexivity. }
  assert (F : (length pages < 3)%nat) by (simpl; lia).
  split; [exact H|]. split; [exact F|].
  exact (proj1 (listing_growth_terminates scripted l s pages s' H 3%nat F)).
Defined.

(** C3, on the scenario of the specification when the store asks to
    retry p1 and is busy for p2: p2 is downloaded when the second
    listing is processed, p1 in the final sweep. *)
Lemma success_ends_invocations_witness :
  exists run s' evs,
    crawl 1 scripted (overlapping [Retry; Wait]) = Some (run, s', evs)
    /\ download_calls evs
       = [(app "p1", Retry); (app "p2", Wait); (app "p3", Success);
          (app "p2", Success); (app "p4", Success); (app "p1", Success)]
    /\ exists head e2 e3 e4,
         anatomy scripted run s' evs head e2 e3 e4
         /\ download_calls evs
            = download_calls head ++ download_calls e2 ++ download_calls e3
                ++ download_calls e4
         /\ forall pre a post,
              download_calls evs = pre ++ (a, Success) :: post ->
              ((forall b o, (b, o) ∈ post ->
                  package_name b <> package_name a)
               \/ exists k1 k2,
                    download_calls e3 = k1 ++ (a, Success) :: k2
                    /\ pre = download_calls head ++ download_calls e2 ++ k1
                    /\ post = k2 ++ download_calls e4
                    /\ (forall b o, (b, o) ∈ k2 ->
                        package_name b <> package_name a)
                    /\ package_name a ∉ run_downloaded run)
              /\ ((forall b o, (b, o) ∈ pre ->
                     package_name b <> package_name a) ->
                  (forall b o, (b, o) ∈ post ->
                     package_name b <> package_name a)
                  /\ package_name a ∈ run_downloaded run).
Proof.
  destruct (crawl 1 scripted (overlapping [Retry; Wait]))
    as [[[run s'] evs]|] eqn:E; [|vm_compute in E; discriminate].
  exists run, s', evs. split; [reflexivity|].
  split.
  { vm_compute in E. injection E as <- <- <-. reflexivity. }
  exact (success_ends_invocations scripted 1 _ run s' evs E).
Defined.

(** C7, on the run where the app is busy again after the long wait. *)
Lemma cooldown_escalation_witness :
  exists run s' evs,
    crawl 1 scripted
      (listed_twice [Wait; RequestError "boom"; Wait; Wait; Success])
    = Some (run, s', evs)
    /\ (busy_pass run).1.2 = [app "e"]
    /\ let local_busy := (busy_pass run).1.2 in
       (exists head e2 e3 e4,
          anatomy scripted run s' evs head e2 e3 e4
          /\ run_retry run
             = picked (queued true) (download_calls head)
               ++ match cooldown_pass run with
                  | Some r => r.1.1
                  | None => (busy_pass run).1.1
                  end
          /\ (forall a o, (a, o) ∈ download_calls e4 -> a ∈ run_retry run)
          /\ (forall a, a ∈ run_retry run ->
              exists o, (o = Retry \/ exists e, o = RequestError e)
                        /\ (a, o) ∈ download_calls head ++ download_calls e2
                                     ++ download_calls e3))
       /\ waited evs = (match local_busy with
                        | [] => []
                        | _ :: _ => map Z.of_nat (seq 1 60)
                        end)
       /\ (local_busy <> [] <-> exists e1 e2, evs = e1 ++ cooldown_trace ++ e2)
       /\ (local_busy = [] <-> cooldown_pass run = None).
Proof.
  destruct (crawl 1 scripted
              (listed_twice [Wait; RequestError "boom"; Wait; Wait; Success]))
    as [[[run s'] evs]|] eqn:E; [|vm_compute in E; discriminate].
  exists run, s', evs. split; [reflexivity|].
  split.
  { vm_compute in E. injection E as <- <- <-. reflexivity. }
  exact (cooldown_escalation scripted 1 _ run s' evs E).
Defined.

(** ** More on one call of [_download] *)

Lemma known_loop {St} (api : API St) retry apps :
  forall v s,
    (forall a, a ∈ apps -> known v a) ->
    for_each (download_body api retry) v apps s = (v, s, []).
Proof.
  induction apps as [|a apps IH]; intros v s K; [reflexivity|].
  rewrite for_each_cons, download_body_skip by (apply K; set_solver).
  rewrite IH by (intros b Hb; apply K; set_solver). reflexivity.
Qed.

(** X1. A call of [_download] over apps whose identifiers are all in
    [downloaded] already does nothing: [download] is not called, nothing
    is logged or slept, the store is left in its state, and the call
    returns two empty lists and an empty set. *)
Theorem download_skips_known {St} (api : API St) apps d retry s :
  (forall a, a ∈ apps -> package_name a ∈ d) ->
  _download api apps d retry s = (([], [], ∅, d), s, []).
Proof.
  intros K. unfold _download, download_loop, bind.
  rewrite known_loop; [reflexivity|].
  intros a Ha. left. simpl. auto.
Qed.

Lemma attempts_calls_sublist retry v apps evs v' :
  attempts retry v apps evs v' ->
  sublist (map fst (download_calls evs)) apps.
Proof.
  induction 1 as [v| |v a o apps evs v' K H IH].
  - constructor.
  - now apply sublist_cons.
  - rewrite download_calls_call. simpl. now apply sublist_skip.
Qed.

Lemma picked_sublist f calls : sublist (picked f calls) (map fst calls).
Proof.
  unfold picked. induction calls as [|[a o] calls IH]; simpl.
  - constructor.
  - destruct (f o); simpl; [now apply sublist_skip | now apply sublist_cons].
Qed.

(** X2. The two lists that [_download] returns keep the order of the
    input: each is a sublist of the input list (apps are never added,
    reordered or repeated beyond their occurrences in the input), and
    every identifier of the returned set is the identifier of an app of
    the input. *)
Theorem download_returns_sublists {St} (api : API St) apps d retry s :
  let '(retry_list0, busy_list0, local_success0, _, _, _) :=
    _download api apps d retry s in
  sublist retry_list0 apps
  /\ sublist busy_list0 apps
  /\ local_success0 ⊆ names apps.
Proof.
  destruct (_download_pass api apps d retry s) as (s' & e & E & F & I0 & W).
  destruct (_download_attempts api apps d retry s) as (v' & H & _).
  rewrite E in *. simpl in H.
  pose proof (attempts_calls_sublist _ _ _ _ _ H) as S.
  splits.
  - etransitivity; [apply picked_sublist | exact S].
  - etransitivity; [apply picked_sublist | exact S].
  - intros n Hn. apply elem_of_names in Hn as (a & Ha & <-).
    apply elem_of_picked in Ha as (o & Ha & _).
    apply elem_of_names. exists a. split; [eauto | reflexivity].
Qed.

Lemma fresh_successes_nodup seen calls :
  fresh seen calls ->
  NoDup (map package_name (picked is_success calls))
  /\ forall n, n ∈ map package_name (picked is_success calls) -> n ∉ seen.
Proof.
  revert seen. induction calls as [|[a o] calls IH]; intros seen F.
  - split; [constructor | intros n Hn; inversion Hn].
  - simpl in F. destruct F as [N F]. apply IH in F as [ND D].
    unfold picked in *. destruct o; simpl in *; try (split; assumption).
    split.
    + constructor; [|exact ND]. intros Hin. apply D in Hin. set_solver.
    + intros n Hn. apply elem_of_cons in Hn as [->|Hn]; [exact N|].
      apply D in Hn. set_solver.
Qed.

Lemma calls_by_outcome retry (calls : list (App * Outcome)) :
  length calls
  = (length (picked (queued retry) calls) + length (picked is_wait calls)
     + length (picked is_success calls)
     + (if retry then 0 else length (picked is_retry calls)))%nat.
Proof.
  unfold picked. rewrite !length_map.
  induction calls as [|[a o] calls IH]; [now destruct retry|].
  destruct o, retry; simpl in *; lia.
Qed.

(** X3. The counts of one call of [_download] add up: the number of calls
    of [download] is the length of the returned retry list, plus the
    length of the returned busy list, plus the size of the returned set,
    plus the number of apps logged as failed a second time; no
    identifier is downloaded twice in a call, so the size of the set is
    the number of successful calls; and with [retry=True] no app is
    logged as failed a second time. *)
Theorem download_counts_add_up {St} (api : API St) apps d retry s :
  let '(retry_list0, busy_list0, local_success0, _, _, evs) :=
    _download api apps d retry s in
  length (download_calls evs)
  = (length retry_list0 + length busy_list0 + size local_success0
     + length (skipped_second_time evs))%nat
  /\ size local_success0 = length (picked is_success (download_calls evs))
  /\ (retry = true -> skipped_second_time evs = [])
  /\ (length (download_calls evs) <= length apps)%nat.
Proof.
  destruct (_download_pass api apps d retry s) as (s' & e & E & F & I0 & W).
  destruct (_download_attempts api apps d retry s) as (v' & H & _).
  rewrite E in *. simpl in H.
  pose proof (attempts_skipped_second_time _ _ _ _ _ H) as K.
  assert (Sz : size (names (picked is_success (download_calls e)))
               = length (picked is_success (download_calls e))).
  { unfold names. rewrite size_list_to_set, length_map; [reflexivity|].
    apply (fresh_successes_nodup _ _ F). }
  splits.
  - rewrite Sz, K, (calls_by_outcome retry).
    destruct retry; [reflexivity | now rewrite length_map].
  - exact Sz.
  - intros ->. exact K.
  - exact (attempts_calls_length _ _ _ _ _ H).
Qed.

Lemma busy_warnings_call retry v a o evs :
  busy_warnings (EvDownload a o :: reaction retry v a o ++ evs)
  = backoff (already_waited v) (wait v) [o] ++ busy_warnings evs.
Proof.
  change (EvDownload a o :: reaction retry v a o ++ evs)
    with ([EvDownload a o] ++ reaction retry v a o ++ evs).
  unfold busy_warnings. rewrite !omap_app. destruct o, retry; reflexivity.
Qed.

Lemma attempts_busy_warnings retry v apps evs v' :
  attempts retry v apps evs v' -> busy_warnings evs = sleeps evs.
Proof.
  induction 1 as [v| |v a o apps evs v' K H IH]; try done.
  now rewrite busy_warnings_call, sleeps_call, IH.
Qed.

Lemma backoff_bounds outs :
  forall flag w d,
    30 <= w ->
    d ∈ backoff flag w outs ->
    30 <= d
    /\ d <= w * 2 ^ Z.of_nat (length (List.filter is_wait outs)
                              - (if flag then 0 else 1)).
Proof.
  induction outs as [|o outs IH]; intros flag w d Hw Hd; [inversion Hd|].
  set (n := length (List.filter is_wait outs)) in *.
  assert (P0 : 1 <= 2 ^ Z.of_nat (n - 1))
    by (apply Z.pow_le_mono_r with (b := 0); lia).
  assert (P1 : 2 ^ Z.of_nat (n - 1) <= 2 ^ Z.of_nat n)
    by (apply Z.pow_le_mono_r; lia).
  assert (P2 : 2 ^ Z.of_nat (S n) = 2 * 2 ^ Z.of_nat n)
    by (rewrite Nat2Z.inj_succ, Z.pow_succ_r; lia).
  assert (Reset : d ∈ backoff false 30 outs ->
                  30 <= d
                  /\ d <= w * 2 ^ Z.of_nat (n - (if flag then 0 else 1))).
  { intros Hin. destruct (IH _ _ _ (Z.le_refl 30) Hin) as [A B].
    fold n in B. simpl in B. split; [exact A|]. clear P2.
    destruct flag; rewrite ?Nat.sub_0_r.
    - assert (0 <= (w - 30) * 2 ^ Z.of_nat n)
        by (apply Z.mul_nonneg_nonneg; lia). lia.
    - assert (0 <= (w - 30) * 2 ^ Z.of_nat (n - 1))
        by (apply Z.mul_nonneg_nonneg; lia). lia. }
  destruct o; simpl in Hd; simpl List.filter; simpl length; fold n.
  - exact (Reset Hd).
  - assert (0 <= w * (2 ^ Z.of_nat n - 1))
      by (apply Z.mul_nonneg_nonneg; lia).
    apply elem_of_cons in Hd as [->|Hd].
    + destruct flag; simpl Nat.sub; rewrite ?Nat.sub_0_r, ?P2; lia.
    + assert (Hw1 : 30 <= (if flag then w * 2 else w))
        by (destruct flag; lia).
      destruct (IH _ _ _ Hw1 Hd) as [A B]. split; [exact A|].
      fold n in B. rewrite Nat.sub_0_r in B.
      destruct flag; simpl Nat.sub; rewrite ?Nat.sub_0_r, ?P2; lia.
  - exact (Reset Hd).
  - exact (IH _ _ _ Hw Hd).
Qed.

(** X4. The sleeps of one call of [_download]: there is one sleep for
    each app of the returned busy list; each warning "Server was busy"
    announces the time that is slept next; and a sleep lasts at least 30
    and at most 30 times 2 to the power of the length of the busy list
    minus one (the wait doubles at most once per busy answer). *)
Theorem download_sleeps_bounded {St} (api : API St) apps d retry s :
  let '(_, busy_list0, _, _, _, evs) := _download api apps d retry s in
  length (sleeps evs) = length busy_list0
  /\ busy_warnings evs = sleeps evs
  /\ forall t, t ∈ sleeps evs ->
       30 <= t <= 30 * 2 ^ Z.of_nat (length busy_list0 - 1).
Proof.
  destruct (_download_pass api apps d retry s) as (s' & e & E & F & I0 & W).
  destruct (_download_attempts api apps d retry s) as (v' & H & _).
  pose proof (_download_sleeps api apps d retry s) as S.
  rewrite E in *. simpl in H, S.
  splits.
  - now rewrite S, backoff_length, picked_wait_length.
  - exact (attempts_busy_warnings _ _ _ _ _ H).
  - intros t Ht. rewrite S in Ht.
    apply backoff_bounds in Ht; [|lia].
    now rewrite picked_wait_length.
Qed.

(** ** More on the passes of [crawl] *)

(** The outcomes among the events are answers of the store. *)
Lemma loop_origin {St} (api : API St) retry apps :
  forall v s a o,
    (a, o) ∈ download_calls (for_each (download_body api retry) v apps s).2 ->
    exists s0, (download api a s0).1 = o.
Proof.
  induction apps as [|b apps IH]; intros v s a o Hin.
  - inversion Hin.
  - rewrite for_each_cons in Hin.
    destruct (decide (known v b)) as [K|K].
    + rewrite (download_body_skip api retry v b s K) in Hin.
      specialize (IH v s a o).
      destruct (for_each _ v apps s) as [[v2 s2] e2]. simpl in *. auto.
    + rewrite (download_body_call api retry v b s K) in Hin.
      specialize (IH (after retry v b (download api b s).1)
                     (download api b s).2 a o).
      destruct (for_each _ _ apps _) as [[v2 s2] e2]. simpl in *.
      apply elem_of_cons in Hin as [E|Hin].
      * injection E as -> ->. eauto.
      * rewrite download_calls_app, download_calls_reaction in Hin. auto.
Qed.

Lemma pass_origin {St} (api : API St) apps retry e :
  pass_of api apps retry e ->
  forall a o, (a, o) ∈ download_calls e ->
    exists s0, (download api a s0).1 = o.
Proof.
  intros (d & s & ->) a o Hin. unfold _download, download_loop, bind in Hin.
  pose proof (loop_origin api retry apps (init_locals d) s a o) as L.
  destruct (for_each _ (init_locals d) apps s) as [[v2 s2] e2].
  simpl in *. rewrite app_nil_r in Hin. auto.
Qed.

Lemma pass_sleeps {St} (api : API St) apps retry e :
  pass_of api apps retry e ->
  length (sleeps e) = length (picked is_wait (download_calls e)).
Proof.
  intros (d & s & ->).
  now rewrite _download_sleeps, backoff_length, picked_wait_length.
Qed.

Lemma pass_calls_length {St} (api : API St) apps retry e :
  pass_of api apps retry e ->
  (length (download_calls e) <= length apps)%nat.
Proof.
  intros (d & s & ->).
  destruct (_download_attempts api apps d retry s) as (v' & H & _).
  exact (attempts_calls_length _ _ _ _ _ H).
Qed.

(** The events of the loop over the listings are those of one call of
    [_download] per listing, with log lines in between. *)
Lemma listings_shape {St} (api : API St) app_lists :
  forall acc s,
  exists passes,
    Forall2 (fun l e => pass_of api (entries l) true e) app_lists passes
    /\ download_calls (for_each (listing_body api) acc app_lists s).2
       = concat (map download_calls passes)
    /\ sleeps (for_each (listing_body api) acc app_lists s).2
       = concat (map sleeps passes).
Proof.
  induction app_lists as [|l app_lists IH]; intros [[retry busy] d] s.
  - exists []. splits; [constructor | reflexivity | reflexivity].
  - destruct (_download_pass api (entries l) d true s)
      as (s1 & e1 & E1 & _).
    assert (P1 : pass_of api (entries l) true e1)
      by (exists d, s; now rewrite E1).
    set (acc1 := (retry ++ picked (queued true) (download_calls e1),
                  busy ++ picked is_wait (download_calls e1),
                  d ∪ names (picked is_success (download_calls e1)))).
    destruct (IH acc1 s1) as (passes & F & C & S).
    assert (R : exists m1 m2,
               (for_each (listing_body api) (retry, busy, d)
                         (l :: app_lists) s).2
               = [EvLog info m1] ++ e1 ++ [EvLog info m2]
                   ++ (for_each (listing_body api) acc1 app_lists s1).2).
    { rewrite for_each_cons. unfold listing_body at 1.
      unfold bind, log, emit. rewrite E1. cbn -[for_each]. fold acc1.
      destruct (for_each (listing_body api) acc1 app_lists s1)
        as [[acc2 s2] e2].
      eexists _, _. cbn [snd app]. rewrite <- app_assoc. reflexivity. }
    destruct R as (m1 & m2 & ->).
    exists (e1 :: passes). splits.
    + now constructor.
    + rewrite !download_calls_app, C. reflexivity.
    + rewrite !sleeps_app, S. reflexivity.
Qed.

Lemma crawl_passes_shape {St} (api : API St) app_lists s :
  exists e1 e2 e3 e4 mid1 mid2,
    shape api app_lists (crawl_passes api app_lists s).1.1
          (crawl_passes api app_lists s).2 [] e1 e2 e3 e4 mid1 mid2.
Proof.
  destruct (listings_shape api app_lists ([], [], ∅) s) as (passes & LF & LC & LS).
  unfold shape, crawl_passes, bind. cbn [app].
  destruct (listings_pass api app_lists [] [] ∅ s)
    as (s1 & e1 & E1 & _ & _ & W1).
  rewrite E1 in LC, LS. cbn [snd] in LC, LS.
  rewrite E1. cbn [app]. rewrite (left_id_L ∅ (∪)).
  set (c1 := download_calls e1) in *.
  destruct (_download_pass api (picked is_wait c1)
              (names (picked is_success c1)) true s1)
    as (s2 & e2 & E2 & _).
  assert (Q2 : pass_of api (picked is_wait c1) true e2)
    by (eexists _, s1; now rewrite E2).
  unfold log at 1 2, emit. cbn -[_download cooldown].
  rewrite E2. cbn -[_download cooldown].
  set (c2 := download_calls e2) in *.
  set (d := names (picked is_success c1) ∪ names (picked is_success c2)).
  destruct (picked is_wait c2) as [|b lb] eqn:LB.
  - cbn -[_download].
    destruct (_download_pass api (picked (queued true) c1
                                  ++ picked (queued true) c2) d false s2)
      as (s4 & e4 & E4 & _).
    assert (Q4 : pass_of api (picked (queued true) c1
                              ++ picked (queued true) c2) false e4)
      by (exists d, s2; now rewrite E4).
    rewrite E4. cbn -[cooldown_trace seq].
    match goal with
    | |- exists _ _ _ _ _ _,
           _ /\ _ /\ _ /\ _ ++ _ :: _ ++ EvLog info ?m :: _ = _ /\ _ =>
        exists e1, e2, [], e4, [EvLog info m], []
    end.
    fold c1 c2. rewrite LB.
    splits; try assumption; try refl; try (now constructor).
    + rewrite !app_nil_r.
      repeat first [rewrite <- app_assoc | rewrite <- app_comm_cons].
      reflexivity.
    + eauto.
    + left. splits; try refl. eexists _, _, _, _. reflexivity.
  - unfold log, emit. rewrite cooldown_run. cbn -[_download cooldown_trace seq].
    destruct (_download_pass api (b :: lb) d true s2)
      as (s3 & e3 & E3 & _).
    assert (Q3 : pass_of api (b :: lb) true e3)
      by (exists d, s2; now rewrite E3).
    rewrite E3. cbn -[_download cooldown_trace seq].
    destruct (_download_pass api (picked (queued true) c1
                ++ picked (queued true) (download_calls e3)) d false s3)
      as (s4 & e4 & E4 & _).
    assert (Q4 : pass_of api (picked (queued true) c1
                ++ picked (queued true) (download_calls e3)) false e4)
      by (exists d, s3; now rewrite E4).
    rewrite E4. cbn -[_download cooldown_trace seq].
    generalize cooldown_trace. intros ct.
    match goal with
    | |- exists _ _ _ _ _ _,
           _ /\ _ /\ _ /\ _ ++ _ :: _ ++ EvLog info ?m1 :: EvLog info ?m2
                  :: (_ ++ _ :: _ ++ [EvLog info ?m3]) ++ _ = _ /\ _ =>
        exists e1, e2, e3, e4,
          ([EvLog info m1; EvLog info m2] ++ ct
             ++ [EvLog info StartedFailedTwice]),
          [EvLog info m3]
    end.
    fold c1 c2. rewrite LB.
    splits; try assumption; try refl; try (now constructor).
    + rewrite !app_nil_r.
      repeat first [rewrite <- app_assoc | rewrite <- app_comm_cons].
      reflexivity.
    + eauto.
    + right. splits; try refl; try discriminate; try assumption.
      * eexists _, _, _, _. reflexivity.
      * eexists _, _, _, _, _. reflexivity.
Qed.

(** ** More on discovery *)

Lemma paging_only_app e1 e2 :
  paging_only e1 -> paging_only e2 -> paging_only (e1 ++ e2).
Proof. apply Forall_app_2. Qed.

Lemma paging_only_silent evs :
  paging_only evs -> download_calls evs = [] /\ sleeps evs = [].
Proof.
  induction 1 as [|e evs He _ [IH1 IH2]]; [split; reflexivity|].
  destruct e; try contradiction; simpl; auto.
Qed.

Lemma more_loop_paging {St} (api : API St) fuel :
  forall l s l' s' e,
    more_loop fuel api l s = Some (l', s', e) -> paging_only e.
Proof.
  induction fuel as [|fuel IH]; intros l s l' s' e H; [discriminate|].
  simpl in H. unfold pbind, total, call_more in H.
  destruct (more api l s) as [[p|] s1].
  - destruct (more_loop fuel api _ s1) as [[[l2 s2] e2]|] eqn:R;
      [|discriminate].
    injection H as <- <- <-. apply IH in R.
    apply (paging_only_app [_]); [repeat constructor | exact R].
  - injection H as <- <- <-. repeat constructor.
Qed.

Lemma subcategories_paging {St} (api : API St) cats :
  forall subs s,
    paging_only (for_each (subcategories_body api) subs cats s).2.
Proof.
  induction cats as [|c cats IH]; intros subs s; [constructor|].
  rewrite for_each_cons. unfold subcategories_body at 1.
  destruct (subcategories api c s) as [l s1].
  specialize (IH (subs ++ l) s1).
  destruct (for_each _ (subs ++ l) cats s1) as [[a2 s2] e2]. exact IH.
Qed.

Lemma discover_body_paging {St} (api : API St) fuel acc sub s acc' s' e :
  discover_body fuel api acc sub s = Some (acc', s', e) -> paging_only e.
Proof.
  unfold discover_body, pbind, total. destruct acc as [ls n].
  destruct (discover_apps api sub s) as [[l|] s1]; simpl.
  - destruct (entries l).
    + intros H. injection H as <- <- <-. constructor.
    + destruct (more_loop fuel api l s1) as [[[l2 s2] e2]|] eqn:R;
        [|discriminate].
      intros H. injection H as <- <- <-. rewrite app_nil_r.
      exact (more_loop_paging _ _ _ _ _ _ _ R).
  - intros H. injection H as <- <- <-. constructor.
Qed.

Lemma pfor_each_paging {St A B} (f : A -> B -> P St A) l :
  (forall a x s a' s' e, f a x s = Some (a', s', e) -> paging_only e) ->
  forall a s a' s' e, pfor_each f a l s = Some (a', s', e) -> paging_only e.
Proof.
  intros Hf. induction l as [|x l IH]; intros a s a' s' e H.
  - injection H as <- <- <-. constructor.
  - simpl in H. unfold pbind in H.
    destruct (f a x s) as [[[a1 s1] e1]|] eqn:R1; [|discriminate].
    destruct (pfor_each f a1 l s1) as [[[a2 s2] e2]|] eqn:R2; [|discriminate].
    injection H as <- <- <-. apply paging_only_app; eauto.
Qed.

Lemma _discover_apps_paging {St} (api : API St) fuel s app_lists s' e :
  _discover_apps fuel api s = Some (app_lists, s', e) -> paging_only e.
Proof.
  unfold _discover_apps, pbind, total.
  destruct (categories api s) as [cats s1].
  pose proof (subcategories_paging api cats [] s1) as Q1.
  destruct (for_each (subcategories_body api) [] cats s1) as [[subs s2] e2].
  simpl in *.
  destruct (pfor_each (discover_body fuel api) ([], 0%nat) subs s2)
    as [[[[ls n] s3] e3]|] eqn:R; [|discriminate].
  intros H. injection H as <- <- <-.
  apply (pfor_each_paging _ _ (discover_body_paging api fuel)) in R.
  apply paging_only_app; [exact Q1|].
  apply (paging_only_app [_]); [repeat constructor|].
  apply paging_only_app; [exact R|]. repeat constructor.
Qed.

(** ** More on whole runs of [crawl] *)

Lemma crawl_shape {St} (api : API St) fuel s run s' evs :
  crawl fuel api s = Some (run, s', evs) ->
  exists e0 e1 e2 e3 e4 mid1 mid2,
    shape api (run_app_lists run) run evs e0 e1 e2 e3 e4 mid1 mid2.
Proof.
  intros H. apply crawl_run in H.
  destruct H as (app_lists & s0 & e0 & D & [Q1 Q2] & R & ->).
  destruct (crawl_passes_shape api app_lists s0)
    as (e1 & e2 & e3 & e4 & mid1 & mid2 & Sh).
  rewrite R in Sh. cbn [fst snd] in Sh.
  exists (EvLog info (Crawling (store api)) :: e0), e1, e2, e3, e4, mid1, mid2.
  unfold shape in *.
  destruct Sh as (_ & _ & S2 & S3 & S4 & Rest).
  rewrite S4.
  split. { constructor; [exact I|]. eapply _discover_apps_paging; eauto. }
  split. { now rewrite waited_log_other by exact I. }
  split; [exact S2|].
  split. { rewrite S3. reflexivity. }
  split; [reflexivity | exact Rest].
Qed.

Lemma pass_waited {St} (api : API St) apps retry e :
  pass_of api apps retry e -> waited e = [].
Proof.
  intros (d & s & ->).
  destruct (_download_attempts api apps d retry s) as (v' & H & _).
  exact (attempts_waited _ _ _ _ _ H).
Qed.

Lemma shape_calls {St} (api : API St) ls run evs e0 e1 e2 e3 e4 mid1 mid2 :
  shape api ls run evs e0 e1 e2 e3 e4 mid1 mid2 ->
  download_calls evs
  = download_calls e1 ++ download_calls e2 ++ download_calls e3
      ++ download_calls e4.
Proof.
  unfold shape. intros (P0 & _ & _ & -> & _ & _ & _ & _ & _ & Cases).
  apply paging_only_silent in P0 as [C0 _].
  rewrite !download_calls_app, C0. cbn [app download_calls omap].
  destruct Cases as [(_ & _ & -> & (n1 & n2 & n3 & n4 & ->) & _)
                    |(_ & _ & (n1 & n2 & n3 & n4 & ->)
                      & (m1 & m2 & m3 & m4 & m5 & ->) & _)];
    reflexivity.
Qed.

Lemma passes_calls_length {St} (api : API St) ls passes :
  Forall2 (fun l e => pass_of api (entries l) true e) ls passes ->
  (length (concat (map download_calls passes)) <= length (all_entries ls))%nat.
Proof.
  unfold all_entries. induction 1 as [|l e ls passes P _ IH]; [reflexivity|].
  cbn [map concat]. rewrite !length_app.
  apply pass_calls_length in P. lia.
Qed.

Lemma passes_sleeps_length {St} (api : API St) ls passes :
  Forall2 (fun l e => pass_of api (entries l) true e) ls passes ->
  length (concat (map sleeps passes))
  = length (picked is_wait (concat (map download_calls passes))).
Proof.
  induction 1 as [|l e ls passes P _ IH]; [reflexivity|].
  cbn [map concat]. rewrite picked_app, !length_app, IH.
  now rewrite (pass_sleeps _ _ _ _ P).
Qed.

Lemma picked_lengths (calls : list (App * Outcome)) :
  (length (picked is_wait calls) + length (picked (queued true) calls)
   <= length calls)%nat.
Proof. rewrite (calls_by_outcome true calls). lia. Qed.

(** X5. A run of [crawl] calls [download] at most four times as often
    as there are entries in the discovered listings (counted with
    repetitions): once in the pass over its listing, once in the pass
    over the busy backlog, once after the long wait and once in the
    final sweep. *)
Theorem crawl_attempts_bounded {St} (api : API St) fuel s run s' evs :
  crawl fuel api s = Some (run, s', evs) ->
  (length (download_calls evs)
   <= 4 * length (all_entries (run_app_lists run)))%nat.
Proof.
  intros H.
  destruct (crawl_shape _ _ _ _ _ _ H)
    as (e0 & e1 & e2 & e3 & e4 & mid1 & mid2 & Sh).
  rewrite (shape_calls _ _ _ _ _ _ _ _ _ _ _ Sh). unfold shape in Sh.
  destruct Sh as (_ & _ & _ & _ & _ & (passes & F & C1 & _) & B & P2 & P4
                  & Cases).
  rewrite !length_app.
  pose proof (passes_calls_length _ _ _ F) as L1. rewrite <- C1 in L1.
  pose proof (pass_calls_length _ _ _ _ P2) as L2. rewrite B in L2.
  pose proof (pass_calls_length _ _ _ _ P4) as L4.
  pose proof (picked_lengths (download_calls e1)) as K1.
  pose proof (picked_lengths (download_calls e2)) as K2.
  pose proof (picked_lengths (download_calls e3)) as K3.
  destruct Cases as [(_ & -> & _ & _ & _ & R)|(_ & P3 & _ & _ & _ & R)];
    rewrite R, length_app in L4.
  - simpl length. lia.
  - pose proof (pass_calls_length _ _ _ _ P3) as L3. lia.
Qed.

Lemma crawl_sleeps_length {St} (api : API St) fuel s run s' evs :
  crawl fuel api s = Some (run, s', evs) ->
  length (sleeps evs)
  = (length (picked is_wait (download_calls evs)) + length (waited evs))%nat
  /\ (length (waited evs) = 0 \/ length (waited evs) = 60)%nat.
Proof.
  intros H.
  destruct (crawl_shape _ _ _ _ _ _ H)
    as (e0 & e1 & e2 & e3 & e4 & mid1 & mid2 & Sh).
  rewrite (shape_calls _ _ _ _ _ _ _ _ _ _ _ Sh). unfold shape in Sh.
  destruct Sh as (P0 & W0 & W1 & -> & _ & (passes & F & C1 & S1) & B & P2
                  & P4 & Cases).
  apply paging_only_silent in P0 as [_ S0].
  rewrite !sleeps_app, !waited_app, !picked_app, !length_app, S0, W0, W1.
  rewrite (pass_waited _ _ _ _ P2), (pass_waited _ _ _ _ P4).
  rewrite (pass_sleeps _ _ _ _ P2), (pass_sleeps _ _ _ _ P4).
  rewrite S1, C1, (passes_sleeps_length _ _ _ F).
  destruct Cases as [(_ & -> & -> & (n1 & n2 & n3 & n4 & ->) & _)
                    |(_ & P3 & (n1 & n2 & n3 & n4 & ->)
                      & (m1 & m2 & m3 & m4 & m5 & ->) & _)].
  - simpl. split; [lia | now left].
  - rewrite (pass_waited _ _ _ _ P3), (pass_sleeps _ _ _ _ P3).
    rewrite !sleeps_app, !waited_app, !length_app.
    replace (length (sleeps cooldown_trace)) with 60%nat by reflexivity.
    replace (length (waited cooldown_trace)) with 60%nat by reflexivity.
    simpl. split; [lia | right; lia].
Qed.

(** X6. In a run of [crawl] the number of sleeps is the number of busy
    answers of the store plus the number of progress lines of the long
    wait, which is 0 or 60: the crawler sleeps once for every busy
    answer, sixty times in the long wait if there is one, and at no
    other time. *)
Theorem crawl_sleeps_counted {St} (api : API St) fuel s run s' evs :
  crawl fuel api s = Some (run, s', evs) ->
  length (sleeps evs)
  = (length (picked is_wait (download_calls evs)) + length (waited evs))%nat
  /\ (length (waited evs) = 0 \/ length (waited evs) = 60)%nat.
Proof. apply crawl_sleeps_length. Qed.

Lemma elem_of_all_entries a ls :
  a ∈ all_entries ls <-> exists l, l ∈ ls /\ a ∈ entries l.
Proof.
  unfold all_entries. rewrite list_elem_of_In, in_concat. split.
  - intros (y & Hy & Ha). apply in_map_iff in Hy as (l & <- & Hl).
    exists l. now rewrite !list_elem_of_In.
  - intros (l & Hl & Ha). exists (entries l).
    rewrite <- !list_elem_of_In, list_elem_of_fmap in *. eauto.
Qed.

Lemma passes_origin {St} (api : API St) ls passes :
  Forall2 (fun l e => pass_of api (entries l) true e) ls passes ->
  forall a o, (a, o) ∈ concat (map download_calls passes) ->
    exists s0, (download api a s0).1 = o.
Proof.
  induction 1 as [|l e ls passes P _ IH]; intros a o Hin; [inversion Hin|].
  cbn [map concat] in Hin. apply elem_of_app in Hin as [Hin|Hin]; [|eauto].
  exact (pass_origin _ _ _ _ P a o Hin).
Qed.

(** Every outcome in a run of [crawl] is an answer of the store. *)
Lemma crawl_origin {St} (api : API St) fuel s run s' evs :
  crawl fuel api s = Some (run, s', evs) ->
  forall a o, (a, o) ∈ download_calls evs ->
    exists s0, (download api a s0).1 = o.
Proof.
  intros H a o Hin.
  destruct (crawl_shape _ _ _ _ _ _ H)
    as (e0 & e1 & e2 & e3 & e4 & mid1 & mid2 & Sh).
  rewrite (shape_calls _ _ _ _ _ _ _ _ _ _ _ Sh) in Hin. unfold shape in Sh.
  destruct Sh as (_ & _ & _ & _ & _ & (passes & F & C1 & _) & B & P2 & P4
                  & Cases).
  rewrite !elem_of_app in Hin. destruct Hin as [Hin|[Hin|[Hin|Hin]]].
  - rewrite C1 in Hin. exact (passes_origin _ _ _ F a o Hin).
  - exact (pass_origin _ _ _ _ P2 a o Hin).
  - destruct Cases as [(_ & -> & _)|(_ & P3 & _)]; [inversion Hin|].
    exact (pass_origin _ _ _ _ P3 a o Hin).
  - exact (pass_origin _ _ _ _ P4 a o Hin).
Qed.

Lemma all_success_picked (calls : list (App * Outcome)) :
  (forall a o, (a, o) ∈ calls -> o = Success) ->
  picked is_wait calls = []
  /\ picked (queued true) calls = []
  /\ picked is_success calls = map fst calls
  /\ map snd calls = repeat Success (length calls).
Proof.
  induction calls as [|[a o] calls IH]; intros A; [repeat split|].
  assert (o = Success) as -> by (apply (A a); apply elem_of_cons; now left).
  destruct IH as (I1 & I2 & I3 & I4).
  { intros b p Hb. apply (A b). apply elem_of_cons. now right. }
  unfold picked in *. simpl. rewrite I1, I2, I3, I4. repeat split.
Qed.

(** X7. When every call of [download] succeeds, a run of [crawl]
    downloads exactly the identifiers of the discovered entries, each of
    them once (however many listings hold it): every call succeeds, no
    two calls are for the same identifier, the number of calls is the
    size of [downloaded], both backlogs stay empty, there is no long
    wait and no sleep. *)
Theorem crawl_all_succeed {St} (api : API St) fuel s run s' evs :
  (forall a s0, (download api a s0).1 = Success) ->
  crawl fuel api s = Some (run, s', evs) ->
  run_downloaded run = names (all_entries (run_app_lists run))
  /\ map snd (download_calls evs)
     = repeat Success (size (run_downloaded run))
  /\ NoDup (map (fun c => package_name c.1) (download_calls evs))
  /\ run_retry run = [] /\ run_busy run = []
  /\ cooldown_pass run = None /\ sleeps evs = [].
Proof.
  intros Ok H.
  assert (A : forall a o, (a, o) ∈ download_calls evs -> o = Success).
  { intros a o Hin. destruct (crawl_origin _ _ _ _ _ _ H a o Hin) as (s0 & <-).
    apply Ok. }
  destruct (crawl_sleeps_length _ _ _ _ _ _ H) as [SL _].
  destruct (crawl_phases _ _ _ _ _ _ H) as (c1 & c2 & c3 & c4 & Ph).
  unfold phases in Ph.
  destruct Ph as (P1 & P2 & P3 & P4 & P5 & P6 & P7 & P8 & P9 & P10 & P11
                  & P12 & P13 & P14 & P15 & P16 & P17 & P18).
  rewrite P1 in A, SL.
  destruct (all_success_picked c1) as (W1 & Q1 & S1 & M1).
  { intros b p Hb. apply (A b). apply elem_of_app. now left. }
  rewrite W1 in P7.
  assert (c2 = []) as ->.
  { destruct c2 as [|[a o] c2]; [reflexivity|].
    specialize (P8 a o ltac:(set_solver)). rewrite P7 in P8. inversion P8. }
  change (picked is_wait []) with (@nil App) in P11, P10.
  destruct P11 as (C & -> & W & R).
  rewrite Q1 in R. simpl in R.
  assert (c4 = []) as ->.
  { destruct c4 as [|[a o] c4]; [reflexivity|].
    specialize (P12 a o ltac:(set_solver)). rewrite R in P12. inversion P12. }
  rewrite !app_nil_r in *. rewrite S1 in P3.
  apply fresh_successes_nodup in P2 as [ND _]. rewrite S1 in ND.
  assert (Sz : size (run_downloaded run) = length c1).
  { rewrite P3. unfold names. rewrite size_list_to_set by exact ND.
    now rewrite !length_map. }
  splits; try assumption.
  - rewrite P3. apply set_eq. intros n. rewrite !elem_of_names. split.
    + intros (a & Ha & <-). exists a. split; [|reflexivity].
      apply list_elem_of_fmap in Ha as ([b o] & -> & Hb).
      apply elem_of_all_entries. eauto.
    + intros (a & Ha & <-).
      apply elem_of_all_entries in Ha as (l & Hl & Ha).
      destruct (P15 l a Hl Ha) as [L|(o & Hin)].
      * rewrite S1 in L. now apply elem_of_names in L.
      * exists a. split; [|reflexivity].
        apply list_elem_of_fmap. exists (a, o). auto.
  - rewrite P1, Sz. exact M1.
  - rewrite P1. rewrite map_map in ND. exact ND.
  - apply length_zero_iff_nil. rewrite SL, W1, W. reflexivity.
Qed.

(** X8. A run of [crawl] calls [download] only for apps of the
    discovered listings, and every identifier in [downloaded] at the end
    is the identifier of a discovered entry. *)
Theorem crawl_downloads_only_discovered {St} (api : API St)
    fuel s run s' evs :
  crawl fuel api s = Some (run, s', evs) ->
  (forall a o, (a, o) ∈ download_calls evs ->
     a ∈ all_entries (run_app_lists run))
  /\ run_downloaded run ⊆ names (all_entries (run_app_lists run)).
Proof.
  intros H.
  destruct (crawl_phases _ _ _ _ _ _ H) as (c1 & c2 & c3 & c4 & Ph).
  pose proof (phases_retry_origin _ _ _ _ _ _ _ _ Ph) as RO.
  unfold phases in Ph.
  destruct Ph as (P1 & P2 & P3 & P4 & P5 & P6 & P7 & P8 & P9 & P10 & P11
                  & P12 & P13 & P14 & P15 & P16 & P17 & P18).
  assert (D1 : forall a o, (a, o) ∈ c1 -> a ∈ all_entries (run_app_lists run)).
  { intros a o Hin. apply elem_of_all_entries. eauto. }
  assert (D2 : forall a o, (a, o) ∈ c2 -> a ∈ all_entries (run_app_lists run)).
  { intros a o Hin. apply P8 in Hin. rewrite P7 in Hin.
    apply elem_of_picked in Hin as (o' & Hin & _). eauto. }
  assert (D3 : forall a o, (a, o) ∈ c3 -> a ∈ all_entries (run_app_lists run)).
  { intros a o Hin. apply P10, elem_of_picked in Hin as (o' & Hin & _). eauto. }
  assert (D : forall a o, (a, o) ∈ download_calls evs ->
              a ∈ all_entries (run_app_lists run)).
  { intros a o Hin. rewrite P1, !elem_of_app in Hin.
    destruct Hin as [Hin|[Hin|[Hin|Hin]]]; eauto.
    apply P12, RO in Hin as (o' & _ & Hin). rewrite !elem_of_app in Hin.
    destruct Hin as [Hin|[Hin|Hin]]; eauto. }
  split; [exact D|].
  intros n Hn. rewrite P3 in Hn. apply elem_of_names in Hn as (a & Ha & <-).
  apply elem_of_picked in Ha as (o & Ha & _).
  apply elem_of_names. exists a. split; [|reflexivity].
  apply (D a o). rewrite P1, app_assoc. apply elem_of_app. now left.
Qed.

(** X9. In a run of [crawl] without the long wait (the pass over the busy
    backlog returned no busy entry), no discovered entry gets lost:
    each one is downloaded in the run, or is attempted in the final
    sweep, without success, as its last chance. *)
Theorem no_cooldown_nothing_lost {St} (api : API St) fuel s run s' evs :
  crawl fuel api s = Some (run, s', evs) ->
  cooldown_pass run = None ->
  exists before final,
    download_calls evs = before ++ final
    /\ final_pass run
       = (picked (queued false) final, picked is_wait final,
          names (picked is_success final))
    /\ forall l a, l ∈ run_app_lists run -> a ∈ entries l ->
         package_name a ∈ names (picked is_success (download_calls evs))
         \/ exists o, o <> Success /\ (a, o) ∈ final.
Proof.
  intros H C.
  pose proof (discovered_entry_fate _ _ _ _ _ _ H) as Fate.
  destruct (crawl_phases _ _ _ _ _ _ H) as (c1 & c2 & c3 & c4 & Ph).
  unfold phases in Ph.
  destruct Ph as (P1 & P2 & P3 & P4 & P5 & P6 & P7 & P8 & P9 & P10 & P11
                  & P12 & P13 & P14 & P15 & P16 & P17 & P18).
  exists (c1 ++ c2 ++ c3), c4. rewrite P1, <- !app_assoc.
  splits; [reflexivity | exact P13 |].
  intros l a Hl Ha. rewrite <- P1.
  destruct (Fate l a Hl Ha) as [F|[F|[(r & F & _)|[F _]]]];
    [now left | | congruence | contradiction].
  destruct (P18 a F) as [L|(o & Hin)].
  - left. rewrite P1, P3, !picked_app, !names_app in *. set_solver.
  - destruct (outcome_cases o) as [->|[->|Q]].
    + left. rewrite P1. apply elem_of_names. exists a. split; [|reflexivity].
      apply elem_of_picked. exists Success. split; [|reflexivity].
      rewrite !elem_of_app. auto.
    + right. exists Wait. split; [discriminate | exact Hin].
    + right. exists o. split; [|exact Hin]. intros ->. discriminate.
Qed.

(** ** More on [_discover_apps] *)

Lemma maxima_app e1 e2 : maxima (e1 ++ e2) = maxima e1 ++ maxima e2.
Proof. apply omap_app. Qed.

Lemma more_loop_result {St} (api : API St) fuel :
  forall l s l' s' e,
    more_loop fuel api l s = Some (l', s', e) ->
    name l' = name l
    /\ (exists extra, entries l' = entries l ++ extra)
    /\ maxima e = [name l].
Proof.
  induction fuel as [|fuel IH]; intros l s l' s' e H; [discriminate|].
  simpl in H. unfold pbind, total, call_more in H.
  destruct (more api l s) as [[p|] s1].
  - destruct (more_loop fuel api _ s1) as [[[l2 s2] e2]|] eqn:R;
      [|discriminate].
    injection H as <- <- <-. apply IH in R as (N & (x & E) & M).
    simpl in *. splits; [exact N | | exact M].
    exists (p ++ x). now rewrite E, app_assoc.
  - injection H as <- <- <-. splits; try reflexivity.
    exists []. now rewrite app_nil_r.
Qed.

Lemma pfor_each_cons {St A B} (f : A -> B -> P St A) a x xs s :
  pfor_each f a (x :: xs) s
  = match f a x s with
    | None => None
    | Some (a1, s1, e1) =>
        match pfor_each f a1 xs s1 with
        | None => None
        | Some (b, s2, e2) => Some (b, s2, e1 ++ e2)
        end
    end.
Proof. reflexivity. Qed.

Lemma all_entries_app l1 l2 :
  all_entries (l1 ++ l2) = all_entries l1 ++ all_entries l2.
Proof. unfold all_entries. now rewrite map_app, concat_app. Qed.

Lemma discover_loop_result {St} (api : API St) fuel subs :
  forall acc n s acc' n' s' e,
    pfor_each (discover_body fuel api) (acc, n) subs s
    = Some ((acc', n'), s', e) ->
    exists new,
      acc' = acc ++ new
      /\ Forall (fun l => entries l <> []) new
      /\ n' = (n + length (all_entries new))%nat
      /\ maxima e = map name new
      /\ (length new <= length subs)%nat.
Proof.
  induction subs as [|sub subs IH]; intros acc n s acc' n' s' e H.
  - injection H as <- <- <- <-. exists []. rewrite app_nil_r.
    splits; first [reflexivity | now constructor | (simpl; lia)].
  - rewrite pfor_each_cons in H.
    destruct (discover_body fuel api (acc, n) sub s)
      as [[[[acc1 n1] s1] e1]|] eqn:R1; [|discriminate].
    destruct (pfor_each _ (acc1, n1) subs s1)
      as [[[[acc2 n2] s2] e2]|] eqn:R2; [|discriminate].
    injection H as <- <- <- <-.
    apply IH in R2 as (new2 & -> & F2 & -> & M2 & L2).
    assert (B : exists new1,
               acc1 = acc ++ new1
               /\ Forall (fun l => entries l <> []) new1
               /\ n1 = (n + length (all_entries new1))%nat
               /\ maxima e1 = map name new1
               /\ (length new1 <= 1)%nat).
    { unfold discover_body, pbind, total in R1.
      destruct (discover_apps api sub s) as [[l|] s0]; simpl in R1.
      - destruct (entries l) as [|a0 rest] eqn:El.
        + injection R1 as <- <- <- <-. exists []. rewrite app_nil_r.
          splits; first [reflexivity | now constructor | (simpl; lia)].
        + destruct (more_loop fuel api l s0) as [[[l2 s3] e3]|] eqn:R;
            [|discriminate].
          injection R1 as <- <- <- <-.
          apply more_loop_result in R as (N & (x & E) & M).
          exists [l2]. splits; try reflexivity.
          * constructor; [|constructor]. rewrite E, El. discriminate.
          * unfold all_entries. simpl. now rewrite app_nil_r.
          * rewrite app_nil_r, M. simpl. now rewrite N.
      - injection R1 as <- <- <- <-. exists []. rewrite app_nil_r.
        splits; first [reflexivity | now constructor | (simpl; lia)]. }
    destruct B as (new1 & -> & F1 & -> & M1 & L1).
    exists (new1 ++ new2). rewrite <- app_assoc.
    splits; try reflexivity.
    + now apply Forall_app_2.
    + rewrite all_entries_app, length_app. lia.
    + now rewrite maxima_app, map_app, M1, M2.
    + rewrite length_app. simpl. lia.
Qed.

Lemma subcategories_no_event {St} (api : API St) cats :
  forall subs s, (for_each (subcategories_body api) subs cats s).2 = [].
Proof.
  induction cats as [|c cats IH]; intros subs s; [reflexivity|].
  rewrite for_each_cons. unfold subcategories_body at 1.
  destruct (subcategories api c s) as [l s1].
  specialize (IH (subs ++ l) s1).
  destruct (for_each _ (subs ++ l) cats s1) as [[a2 s2] e2].
  simpl in *. exact IH.
Qed.

Lemma app_set_names (app_lists : list AppList) :
  forall X : gset string,
    foldl (fun app_set app_list =>
             foldl (fun app_set app => app_set ∪ {[package_name app]})
                   app_set (entries app_list))
          X app_lists
    = X ∪ names (all_entries app_lists).
Proof.
  assert (Inner : forall (l : list App) (X : gset string),
            foldl (fun app_set app => app_set ∪ {[package_name app]}) X l
            = X ∪ names l).
  { induction l as [|a l IH]; intros X; simpl.
    - unfold names. simpl. set_solver.
    - rewrite IH. unfold names. simpl. set_solver. }
  induction app_lists as [|l ls IH]; intros X; simpl.
  - unfold names, all_entries. simpl. set_solver.
  - rewrite IH, Inner. unfold all_entries. simpl.
    rewrite names_app. set_solver.
Qed.

Lemma size_names_le (l : list App) : (size (names l) <= length l)%nat.
Proof.
  unfold names. induction l as [|a l IH]; simpl.
  - change (size (∅ : gset string) <= 0)%nat. now rewrite size_empty.
  - rewrite size_union_alt, size_singleton.
    assert (size (list_to_set (C := gset string) (map package_name l)
                  ∖ {[package_name a]})
            <= size (list_to_set (C := gset string) (map package_name l)))%nat
      by (apply subseteq_size; set_solver).
    lia.
Qed.

(** What [_discover_apps] returns and reports. *)
Lemma _discover_apps_result {St} (api : API St) fuel s app_lists s' e :
  _discover_apps fuel api s = Some (app_lists, s', e) ->
  Forall (fun l => entries l <> []) app_lists
  /\ maxima e = map name app_lists
  /\ exists n_subs n_cats rest,
       (length app_lists <= n_subs)%nat
       /\ e = EvLog info (FoundSubcategories n_subs n_cats) :: rest
               ++ [EvLog info (FinishedDiscovering
                               (length (all_entries app_lists))
                               (length app_lists) n_cats
                               (size (names (all_entries app_lists))))].
Proof.
  unfold _discover_apps, pbind, total.
  destruct (categories api s) as [cats s1].
  pose proof (subcategories_no_event api cats [] s1) as Q1.
  destruct (for_each (subcategories_body api) [] cats s1) as [[subs s2] e2].
  simpl in *. subst e2.
  destruct (pfor_each (discover_body fuel api) ([], 0%nat) subs s2)
    as [[[[ls n] s3] e3]|] eqn:R; [|discriminate].
  intros H. injection H as <- <- <-.
  apply discover_loop_result in R as (new & -> & F & -> & M & L).
  simpl in *. splits; try assumption.
  - unfold maxima in *. simpl. rewrite omap_app, M. simpl.
    now rewrite app_nil_r.
  - exists (length subs), (length cats), e3. split; [exact L|].
    rewrite app_set_names, (left_id_L ∅ (∪)). reflexivity.
Qed.

(** X10. Every listing that [_discover_apps] returns holds at least one
    app, and there are at most as many listings as subcategories:
    a subcategory whose listing is empty or missing is left out. *)
Theorem discovered_listings_not_empty {St} (api : API St)
    fuel s app_lists s' e :
  _discover_apps fuel api s = Some (app_lists, s', e) ->
  Forall (fun l => entries l <> []) app_lists
  /\ exists n_subs n_cats rest,
       e = EvLog info (FoundSubcategories n_subs n_cats) :: rest
       /\ (length app_lists <= n_subs)%nat.
Proof.
  intros H. apply _discover_apps_result in H as (F & _ & n1 & n2 & r & L & ->).
  split; [exact F|]. eexists n1, n2, _. split; [reflexivity | exact L].
Qed.

(** X11. The counts of the last log line of [_discover_apps] are those
    of the returned listings: the number of apps is the total number of
    their entries, the number of listings is their number, and the
    number of unique package names is the number of distinct
    identifiers among the entries, which is at most the number of
    apps. *)
Theorem discovery_counts_reported {St} (api : API St)
    fuel s app_lists s' e :
  _discover_apps fuel api s = Some (app_lists, s', e) ->
  (exists before n_cats,
     e = before
         ++ [EvLog info (FinishedDiscovering
                           (length (all_entries app_lists))
                           (length app_lists) n_cats
                           (size (names (all_entries app_lists))))])
  /\ (size (names (all_entries app_lists))
      <= length (all_entries app_lists))%nat.
Proof.
  intros H. apply _discover_apps_result in H as (_ & _ & n1 & n2 & r & _ & ->).
  split.
  - eexists (_ :: r), n2. reflexivity.
  - apply size_names_le.
Qed.

(** X12. Discovery pages every listing that it returns to the end, one
    after the other: the listings whose [more()] raised [Maximum] are,
    in order, the returned listings, each once; and discovery never
    calls [download] and never sleeps. *)
Theorem discovery_exhausts_each_listing {St} (api : API St)
    fuel s app_lists s' e :
  _discover_apps fuel api s = Some (app_lists, s', e) ->
  maxima e = map name app_lists
  /\ download_calls e = [] /\ sleeps e = [].
Proof.
  intros H. pose proof (_discover_apps_paging _ _ _ _ _ _ H) as Pg.
  apply paging_only_silent in Pg as [C S].
  apply _discover_apps_result in H as (_ & M & _). auto.
Qed.

(** ** [crawl_meta_data] *)

Lemma meta_apps_events sub l :
  forall evs,
    foldl (meta_app_body sub) evs l
    = evs ++ flat_map (fun a => [CopyCategory a sub; LogApp a; WriteToFile a]) l.
Proof.
  induction l as [|a l IH]; intros evs; simpl.
  - now rewrite app_nil_r.
  - rewrite IH. unfold meta_app_body. now rewrite <- app_assoc.
Qed.

Lemma meta_listings_events sp ls :
  forall evs,
    foldl (meta_listing_body sp) evs ls
    = evs ++ flat_map
               (fun l =>
                  flat_map (fun a => [CopyCategory a (sp l); LogApp a;
                                      WriteToFile a]) (entries l)
                  ++ [LogSubcategory (sp l)]) ls.
Proof.
  induction ls as [|l ls IH]; intros evs; simpl.
  - now rewrite app_nil_r.
  - rewrite IH. unfold meta_listing_body. rewrite meta_apps_events.
    now rewrite <- !app_assoc.
Qed.

Lemma written_app e1 e2 : written (e1 ++ e2) = written e1 ++ written e2.
Proof. apply omap_app. Qed.

Lemma categorised_app e1 e2 :
  categorised (e1 ++ e2) = categorised e1 ++ categorised e2.
Proof. apply omap_app. Qed.

Lemma discovery_part_app e1 e2 :
  discovery_part (e1 ++ e2) = discovery_part e1 ++ discovery_part e2.
Proof. apply omap_app. Qed.

Lemma meta_listing_projections sp l :
  let evs := flat_map (fun a => [CopyCategory a (sp l); LogApp a;
                                 WriteToFile a]) (entries l)
             ++ [LogSubcategory (sp l)] in
  written evs = entries l
  /\ categorised evs = map (fun a => (a, sp l)) (entries l)
  /\ discovery_part evs = [].
Proof.
  cbv zeta. generalize (entries l). intros r.
  induction r as [|a r IH]; [repeat split|].
  destruct IH as (I1 & I2 & I3).
  change (flat_map ?g (a :: r) ++ ?t)
    with ([CopyCategory a (sp l); LogApp a; WriteToFile a]
            ++ (flat_map g r ++ t)).
  rewrite (written_app [_; _; _]), (categorised_app [_; _; _]),
    (discovery_part_app [_; _; _]), I1, I2, I3.
  repeat split.
Qed.

Lemma meta_listings_projections sp ls :
  let evs := flat_map
               (fun l =>
                  flat_map (fun a => [CopyCategory a (sp l); LogApp a;
                                      WriteToFile a]) (entries l)
                  ++ [LogSubcategory (sp l)]) ls in
  written evs = all_entries ls
  /\ categorised evs
     = flat_map (fun l => map (fun a => (a, sp l)) (entries l)) ls
  /\ discovery_part evs = [].
Proof.
  cbv zeta. induction ls as [|l ls IH]; [repeat split|].
  destruct IH as (I1 & I2 & I3).
  destruct (meta_listing_projections sp l) as (L1 & L2 & L3).
  cbn [flat_map].
  rewrite written_app, categorised_app, discovery_part_app,
    I1, I2, I3, L1, L2, L3.
  repeat split.
Qed.

Lemma discovery_part_inj e0 : discovery_part (map MetaDiscovery e0) = e0.
Proof.
  induction e0 as [|e e0 IH]; [reflexivity|].
  change (e :: discovery_part (map MetaDiscovery e0) = e :: e0).
  now rewrite IH.
Qed.

Lemma no_meta_in_discovery e0 :
  written (map MetaDiscovery e0) = []
  /\ categorised (map MetaDiscovery e0) = [].
Proof.
  induction e0 as [|e e0 [I1 I2]]; [split; reflexivity|].
  split; [exact I1 | exact I2].
Qed.

(** X13. The metadata crawl writes every entry of every discovered
    listing, in the order of discovery and once for each listing that
    holds it (no entry is left out and none is merged with its
    duplicate in another listing); before an entry is written, its
    category is set to the subcategory of the listing it is read from;
    and the crawl never calls [download] and never sleeps. *)
Theorem meta_crawl_writes_every_entry {St} (api : API St)
    fuel sp s app_lists s' evs :
  crawl_meta_data fuel api sp s = Some (app_lists, s', evs) ->
  written evs = all_entries app_lists
  /\ categorised evs
     = flat_map (fun l => map (fun a => (a, sp l)) (entries l)) app_lists
  /\ _discover_apps fuel api s = Some (app_lists, s', discovery_part evs)
  /\ download_calls (discovery_part evs) = []
  /\ sleeps (discovery_part evs) = [].
Proof.
  unfold crawl_meta_data.
  destruct (_discover_apps fuel api s) as [[[ls s1] e0]|] eqn:D;
    [|discriminate].
  intros H. injection H as <- <- <-. rewrite meta_listings_events.
  pose proof (_discover_apps_paging _ _ _ _ _ _ D) as Pg.
  apply paging_only_silent in Pg as [C S].
  destruct (no_meta_in_discovery e0) as [W0 K0].
  pose proof (meta_listings_projections sp ls) as T. cbv zeta in T.
  destruct T as (T1 & T2 & T3).
  rewrite written_app, categorised_app, discovery_part_app,
    W0, K0, T1, T2, T3, discovery_part_inj, app_nil_r.
  splits; auto.
Qed.

(** ** The base directory and the start of a crawl *)

Lemma append_cons c r b : String c r +:+ b = String c (r +:+ b).
Proof. reflexivity. Qed.

Lemma append_assoc (a b c : string) : (a +:+ b) +:+ c = a +:+ (b +:+ c).
Proof.
  induction a as [|x a IH]; [reflexivity|].
  now rewrite !append_cons, IH.
Qed.

Lemma absolute_append a b : absolute a -> absolute (a +:+ b).
Proof. destruct a as [|c r]; [discriminate|]. intros H. exact H. Qed.

Lemma absolute_join a b : absolute a -> absolute (join a b).
Proof.
  intros H. unfold join.
  destruct (startswith_slash b) eqn:B; [exact B|].
  destruct (match a with EmptyString => true | _ => endswith_slash a end);
    now apply absolute_append.
Qed.

(** X14. When the working directory is absolute and [HOME], if set, is
    absolute, the base directory that the script computes is an absolute
    path, and giving it back to the script as [--basedir] yields the
    same directory. *)
Theorem base_dir_absolute_and_stable env p b :
  absolute (getcwd env) ->
  (forall h, HOME env = Some h -> absolute h) ->
  base_dir env p = Returns b ->
  absolute b /\ base_dir env (Some b) = Returns b.
Proof.
  intros Hcwd Hhome H.
  assert (A : absolute b).
  { unfold base_dir in H. destruct p as [[|c r]|]; try discriminate.
    destruct (Ascii.eqb c "/") eqn:E1.
    - injection H as <-. unfold absolute. simpl. exact E1.
    - destruct (Ascii.eqb c "~") eqn:E2.
      + destruct (HOME env) as [h|] eqn:Hh; [|discriminate].
        injection H as <-. simpl. rewrite E2.
        apply absolute_append. now apply Hhome.
      + injection H as <-. now apply absolute_join. }
  split; [exact A|].
  unfold absolute in A. destruct b as [|c r]; [discriminate|].
  simpl in *. now rewrite A.
Qed.


Lemma occurs_append c a b : occurs c (a +:+ b) = occurs c a || occurs c b.
Proof.
  induction a as [|x a IH]; [reflexivity|].
  rewrite append_cons. simpl. rewrite IH. now rewrite orb_assoc.
Qed.

Lemma occurs_replace c new s :
  occurs c new = false -> occurs c (replace c new s) = false.
Proof.
  intros N. induction s as [|x s IH]; [reflexivity|].
  simpl. destruct (Ascii.eqb x c) eqn:E.
  - now rewrite occurs_append, N, IH.
  - simpl. now rewrite E, IH.
Qed.

(** X16. A [--basedir] that begins with a tilde is expanded by replacing
    every tilde in it by [HOME], not only the leading one: the result is
    [HOME] followed by the rest with its tildes replaced, and it holds
    no tilde at all when [HOME] holds none. *)
Theorem tilde_replaced_everywhere env r h :
  HOME env = Some h ->
  base_dir env (Some (String "~" r)) = Returns (h +:+ replace "~" h r)
  /\ (occurs "~" h = false ->
      occurs "~" (h +:+ replace "~" h r) = false).
Proof.
  intros Hh. split.
  - unfold base_dir. simpl. now rewrite Hh.
  - intros N. now rewrite occurs_append, N, occurs_replace.
Qed.

Lemma endswith_slash_split b :
  endswith_slash b = true -> exists pre, b = pre +:+ "/".
Proof.
  induction b as [|c r IH]; [discriminate|].
  destruct r as [|c2 r2].
  - simpl. intros E. apply Ascii.eqb_eq in E as ->. now exists ""%string.
  - intros E. destruct IH as (pre & ->); [exact E|].
    exists (String c pre). reflexivity.
Qed.

(** X17. The log directory lies directly below the base directory: for
    a base directory that is not empty, its path is the base directory
    followed by [/logs], where the slash is the one that ends the base
    directory if it ends with one, and is added only if it does not. *)
Theorem log_path_below_base b :
  b <> EmptyString ->
  log_path b = (if endswith_slash b then b +:+ "logs" else b +:+ "/logs")
  /\ exists pre,
       log_path b = pre +:+ "/logs"
       /\ (if endswith_slash b then pre +:+ "/" = b else pre = b).
Proof.
  intros N. unfold log_path, join. simpl.
  destruct b as [|c r]; [contradiction|].
  destruct (endswith_slash (String c r)) eqn:E.
  - split; [reflexivity|].
    destruct (endswith_slash_split _ E) as (pre & P). exists pre.
    rewrite P at 1. rewrite append_assoc. split; [reflexivity|].
    now rewrite P.
  - split; [reflexivity|]. exists (String c r). split; reflexivity.
Qed.

(** X18. The start of the script: the log directory below the base
    directory is made first; the script exits with code 1 exactly when
    the store is Google Play and no credentials are given, and then no
    API object is built and nothing is crawled; otherwise it builds the
    API of the chosen store with the credentials and the base directory
    and calls [crawl_meta_data] if [--meta] is set and [crawl] if not;
    the base directory is printed only before [crawl]. *)
Theorem main_credentials_gate env args steps :
  main env args = Returns steps ->
  exists b rest,
    base_dir env (args_base_dir args) = Returns b
    /\ steps = MakeDirs (log_path b) :: LogHandlers (log_path b) :: rest
    /\ (In (Exit 1) rest
        <-> args_api args = GooglePlay /\ args_credentials args = None)
    /\ (In (Exit 1) rest -> rest = [LogCredentialsRequired; Exit 1])
    /\ (~ In (Exit 1) rest ->
        rest = (if args_meta args then [] else [Print b])
               ++ [NewAPI (args_api args) (args_credentials args) b;
                   if args_meta args then CallCrawlMetaData else CallCrawl]).
Proof.
  unfold main. destruct (base_dir env (args_base_dir args)) as [b|e];
    [|discriminate].
  intros H. exists b.
  destruct (args_api args) eqn:A, (args_credentials args) as [c|] eqn:C,
    (args_meta args) eqn:M; injection H as <-; eexists;
    (split; [reflexivity|]); (split; [reflexivity|]); simpl;
    splits; try split;
    try (intros [X|[X|[X|X]]]; try discriminate; contradiction);
    try (intros [X|[X|X]]; try discriminate; contradiction);
    try (intros [X Y]; discriminate);
    try (intros _; auto; fail);
    try (intros N; exfalso; apply N; auto; fail);
    try (intros _; reflexivity).
Qed.

(** ** Concrete runs for the further properties *)

(** X1, on two apps that were both downloaded before. *)
Lemma download_skips_known_witness :
  _download scripted [app "a"; app "b"] {["a"; "b"]} true (one_listing [Wait])
  = (([], [], ∅, {["a"; "b"]}), one_listing [Wait], []).
Proof.
  apply (download_skips_known scripted [app "a"; app "b"] {["a"; "b"]} true
           (one_listing [Wait])).
  intros a Ha. apply elem_of_cons in Ha as [->|Ha].
  - refine (bool_decide_unpack _ _). vm_compute. exact I.
  - apply elem_of_cons in Ha as [->|Ha].
    + refine (bool_decide_unpack _ _). vm_compute. exact I.
    + apply elem_of_nil in Ha. contradiction.
Defined.

(** X5, on the two overlapping listings with a busy store at first. *)
Lemma crawl_attempts_bounded_witness :
  exists run s' evs,
    crawl 1 scripted (overlapping [Wait; Retry]) = Some (run, s', evs)
    /\ (length (download_calls evs)
        <= 4 * length (all_entries (run_app_lists run)))%nat.
Proof.
  destruct (crawl 1 scripted (overlapping [Wait; Retry]))
    as [[[run s'] evs]|] eqn:E; [|vm_compute in E; discriminate].
  exists run, s', evs. split; [reflexivity|].
  exact (crawl_attempts_bounded scripted 1 _ run s' evs E).
Defined.

(** X6, on a run with the long wait. *)
Lemma crawl_sleeps_counted_witness :
  exists run s' evs,
    crawl 1 scripted (listed_twice [Wait; Wait; Wait]) = Some (run, s', evs)
    /\ length (sleeps evs)
       = (length (picked is_wait (download_calls evs))
          + length (waited evs))%nat
    /\ (length (waited evs) = 0 \/ length (waited evs) = 60)%nat.
Proof.
  destruct (crawl 1 scripted (listed_twice [Wait; Wait; Wait]))
    as [[[run s'] evs]|] eqn:E; [|vm_compute in E; discriminate].
  exists run, s', evs. split; [reflexivity|].
  exact (crawl_sleeps_counted scripted 1 _ run s' evs E).
Defined.

(** X7, on the two overlapping listings. *)
Lemma crawl_all_succeed_witness :
  exists run s' evs,
    crawl 1 (always Success) (overlapping [Wait]) = Some (run, s', evs)
    /\ run_downloaded run = names (all_entries (run_app_lists run))
    /\ map snd (download_calls evs)
       = repeat Success (size (run_downloaded run))
    /\ NoDup (map (fun c => package_name c.1) (download_calls evs))
    /\ run_retry run = [] /\ run_busy run = []
    /\ cooldown_pass run = None /\ sleeps evs = [].
Proof.
  destruct (crawl 1 (always Success) (overlapping [Wait]))
    as [[[run s'] evs]|] eqn:E; [|vm_compute in E; discriminate].
  exists run, s', evs. split; [reflexivity|].
  exact (crawl_all_succeed (always Success) 1 _ run s' evs
           (fun _ _ => eq_refl) E).
Defined.

(** X8, on the two overlapping listings. *)
Lemma crawl_downloads_only_discovered_witness :
  exists run s' evs,
    crawl 1 scripted (overlapping [Retry; Wait]) = Some (run, s', evs)
    /\ (forall a o, (a, o) ∈ download_calls evs ->
          a ∈ all_entries (run_app_lists run))
    /\ run_downloaded run ⊆ names (all_entries (run_app_lists run)).
Proof.
  destruct (crawl 1 scripted (overlapping [Retry; Wait]))
    as [[[run s'] evs]|] eqn:E; [|vm_compute in E; discriminate].
  exists run, s', evs. split; [reflexivity|].
  exact (crawl_downloads_only_discovered scripted 1 _ run s' evs E).
Defined.

(** X9, on a run where an app fails in its listing and in the final
    sweep. *)
Lemma no_cooldown_nothing_lost_witness :
  exists run s' evs,
    crawl 1 scripted (one_listing [Retry; Success; Retry])
    = Some (run, s', evs)
    /\ cooldown_pass run = None
    /\ exists before final,
         download_calls evs = before ++ final
         /\ final_pass run
            = (picked (queued false) final, picked is_wait final,
               names (picked is_success final))
         /\ forall l a, l ∈ run_app_lists run -> a ∈ entries l ->
              package_name a
                ∈ names (picked is_success (download_calls evs))
              \/ exists o, o <> Success /\ (a, o) ∈ final.
Proof.
  destruct (crawl 1 scripted (one_listing [Retry; Success; Retry]))
    as [[[run s'] evs]|] eqn:E; [|vm_compute in E; discriminate].
  exists run, s', evs. split; [reflexivity|].
  assert (C : cooldown_pass run = None).
  { vm_compute in E. injection E as <- <- <-. reflexivity. }
  split; [exact C|].
  exact (no_cooldown_nothing_lost scripted 1 _ run s' evs E C).
Defined.

(** X10, on a catalog whose second subcategory has no listing. *)
Lemma discovered_listings_not_empty_witness :
  exists app_lists s' e,
    _discover_apps 3 scripted
      {| outcomes := [];
         catalog := [("A", [[app "a"]; [app "b"]]); ("B", [])] |}
    = Some (app_lists, s', e)
    /\ Forall (fun l => entries l <> []) app_lists
    /\ exists n_subs n_cats rest,
         e = EvLog info (FoundSubcategories n_subs n_cats) :: rest
         /\ (length app_lists <= n_subs)%nat.
Proof.
  destruct (_discover_apps 3 scripted
              {| outcomes := [];
                 catalog := [("A", [[app "a"]; [app "b"]]); ("B", [])] |})
    as [[[app_lists s'] e]|] eqn:E; [|vm_compute in E; discriminate].
  exists app_lists, s', e. split; [reflexivity|].
  exact (discovered_listings_not_empty scripted 3 _ app_lists s' e E).
Defined.

(** X11, on the two overlapping listings: five apps, four names. *)
Lemma discovery_counts_reported_witness :
  exists app_lists s' e,
    _discover_apps 1 scripted (overlapping []) = Some (app_lists, s', e)
    /\ (exists before n_cats,
          e = before
              ++ [EvLog info (FinishedDiscovering
                                (length (all_entries app_lists))
                                (length app_lists) n_cats
                                (size (names (all_entries app_lists))))])
    /\ (size (names (all_entries app_lists))
        <= length (all_entries app_lists))%nat.
Proof.
  destruct (_discover_apps 1 scripted (overlapping []))
    as [[[app_lists s'] e]|] eqn:E; [|vm_compute in E; discriminate].
  exists app_lists, s', e. split; [reflexivity|].
  exact (discovery_counts_reported scripted 1 _ app_lists s' e E).
Defined.

(** X12, on a listing of two pages and a listing of one. *)
Lemma discovery_exhausts_each_listing_witness :
  exists app_lists s' e,
    _discover_apps 3 scripted
      {| outcomes := [];
         catalog := [("A", [[app "a"]; [app "b"]]); ("B", [[app "c"]])] |}
    = Some (app_lists, s', e)
    /\ maxima e = map name app_lists
    /\ download_calls e = [] /\ sleeps e = [].
Proof.
  destruct (_discover_apps 3 scripted
              {| outcomes := [];
                 catalog := [("A", [[app "a"]; [app "b"]]);
                             ("B", [[app "c"]])] |})
    as [[[app_lists s'] e]|] eqn:E; [|vm_compute in E; discriminate].
  exists app_lists, s', e. split; [reflexivity|].
  exact (discovery_exhausts_each_listing scripted 3 _ app_lists s' e E).
Defined.

(** X13, on the two overlapping listings, with the name of a listing as
    its subcategory. *)
Lemma meta_crawl_writes_every_entry_witness :
  exists app_lists s' evs,
    crawl_meta_data 1 scripted name (overlapping [])
    = Some (app_lists, s', evs)
    /\ written evs = all_entries app_lists
    /\ categorised evs
       = flat_map (fun l => map (fun a => (a, name l)) (entries l))
                  app_lists
    /\ _discover_apps 1 scripted (overlapping [])
       = Some (app_lists, s', discovery_part evs)
    /\ download_calls (discovery_part evs) = []
    /\ sleeps (discovery_part evs) = [].
Proof.
  destruct (crawl_meta_data 1 scripted name (overlapping []))
    as [[[app_lists s'] evs]|] eqn:E; [|vm_compute in E; discriminate].
  exists app_lists, s', evs. split; [reflexivity|].
  exact (meta_crawl_writes_every_entry scripted 1 name _ app_lists s' evs E).
Defined.

(** X14, on a relative [--basedir]. *)
Lemma base_dir_absolute_and_stable_witness :
  let env := {| HOME := Some "/home/u"; getcwd := "/work" |} in
  base_dir env (Some "data") = Returns "/work/data"
  /\ absolute "/work/data"
  /\ base_dir env (Some "/work/data") = Returns "/work/data".
Proof.
  intros env. split; [reflexivity|].
  apply (base_dir_absolute_and_stable env (Some "data") "/work/data").
  - reflexivity.
  - intros h H. injection H as <-. reflexivity.
  - reflexivity.
Defined.

(** X16, on a [--basedir] with a second tilde. *)
Lemma tilde_replaced_everywhere_witness :
  let env := {| HOME := Some "/home/u"; getcwd := "/work" |} in
  base_dir env (Some "~/a~b") = Returns ("/home/u" +:+ "/a/home/ub")
  /\ (occurs "~" "/home/u" = false ->
      occurs "~" ("/home/u" +:+ "/a/home/ub") = false).
Proof.
  intros env.
  exact (tilde_replaced_everywhere env "/a~b" "/home/u" eq_refl).
Defined.

(** X17, on a base directory that ends with a slash. *)
Lemma log_path_below_base_witness :
  log_path "/srv/" = "/srv/logs"%string
  /\ exists pre,
       log_path "/srv/" = pre +:+ "/logs"
       /\ pre +:+ "/" = "/srv/"%string.
Proof.
  apply (log_path_below_base "/srv/"). discriminate.
Defined.

(** X18, on Google Play without credentials. *)
Lemma main_credentials_gate_witness :
  let env := {| HOME := None; getcwd := "/work" |} in
  let args := {| args_api := GooglePlay; args_meta := false;
                 args_base_dir := Some "/srv"; args_credentials := None |} in
  let steps := [MakeDirs "/srv/logs"; LogHandlers "/srv/logs";
                LogCredentialsRequired; Exit 1] in
  main env args = Returns steps
  /\ exists b rest,
       base_dir env (args_base_dir args) = Returns b
       /\ steps = MakeDirs (log_path b) :: LogHandlers (log_path b) :: rest
       /\ (In (Exit 1) rest
           <-> args_api args = GooglePlay /\ args_credentials args = None)
       /\ (In (Exit 1) rest -> rest = [LogCredentialsRequired; Exit 1])
       /\ (~ In (Exit 1) rest ->
           rest = (if args_meta args then [] else [Print b])
                  ++ [NewAPI (args_api args) (args_credentials args) b;
                      if args_meta args then CallCrawlMetaData
                      else CallCrawl]).
Proof.
  intros env args steps. split; [reflexivity|].
  exact (main_credentials_gate env args steps eq_refl).
Defined.
